(** * web-profiler: the load orchestration of [webloader/loader.py]

    A shallow embedding of [LoadResult], [PageResult], the URL helpers of
    [Loader] and [Loader.load_pages], with the backend hooks ([_setup],
    [_teardown], [_load_page]) and the network part of the protocol check
    left as oracles of a Section. *)

From Stdlib Require Import Ascii ZArith.
From stdpp Require Import base list strings gmap.

Local Open Scope Z_scope.

(** ** Python strings (byte strings of Python 2) *)

Fixpoint str_mem (c : ascii) (s : string) : bool :=
  match s with
  | EmptyString => false
  | String d s' => if Ascii.eqb c d then true else str_mem c s'
  end.

Fixpoint str_map (f : ascii -> ascii) (s : string) : string :=
  match s with
  | EmptyString => EmptyString
  | String c s' => String (f c) (str_map f s')
  end.

Fixpoint str_prefixb (p s : string) : bool :=
  match p, s with
  | EmptyString, _ => true
  | String c p', String d s' => Ascii.eqb c d && str_prefixb p' s'
  | String _ _, EmptyString => false
  end.

(** [sub in s] of Python for strings. *)
Fixpoint str_contains (sub s : string) : bool :=
  str_prefixb sub s ||
  match s with
  | EmptyString => false
  | String _ s' => str_contains sub s'
  end.

(** [s.find(c)] for one character; [None] stands for [-1]. *)
Fixpoint str_find (c : ascii) (s : string) : option nat :=
  match s with
  | EmptyString => None
  | String d s' =>
      if Ascii.eqb c d then Some 0%nat else S <$> str_find c s'
  end.

(** [s[:n]] and [s[n:]]. *)
Fixpoint str_take (n : nat) (s : string) : string :=
  match n, s with
  | O, _ | _, EmptyString => EmptyString
  | S n', String c s' => String c (str_take n' s')
  end.

Fixpoint str_drop (n : nat) (s : string) : string :=
  match n, s with
  | O, _ => s
  | _, EmptyString => EmptyString
  | S n', String _ s' => str_drop n' s'
  end.

Fixpoint str_forallb (f : ascii -> bool) (s : string) : bool :=
  match s with
  | EmptyString => true
  | String c s' => f c && str_forallb f s'
  end.

(** ** Results *)

Module LoadResult.
(** The status constants of [LoadResult]. *)
Inductive status :=
| SUCCESS | FAILURE_TIMEOUT | FAILURE_UNKNOWN | FAILURE_NO_200 | FAILURE_UNSET.

Definition status_eqb (a b : status) : bool :=
  match a, b with
  | SUCCESS, SUCCESS | FAILURE_TIMEOUT, FAILURE_TIMEOUT
  | FAILURE_UNKNOWN, FAILURE_UNKNOWN | FAILURE_NO_200, FAILURE_NO_200
  | FAILURE_UNSET, FAILURE_UNSET => true
  | _, _ => false
  end.

(** A [LoadResult]; load time and size are numbers (or [None]); Python
    truthiness of a number is [<> 0]. *)
Record t := mk {
  status_ : status;
  url : string;
  final_url : option string;
  time : option Z;
  size : option Z;
  har_path : option string;
  image_path : option string;
  raw : option string;
  tcp_fast_open_supported : bool
}.

(** [LoadResult(status, url)] with every keyword argument at its default. *)
Definition make (st : status) (u : string) : t :=
  mk st u None None None None None None false.
End LoadResult.

Module PageResult.
Inductive status :=
| SUCCESS | PARTIAL_SUCCESS | FAILURE_NOT_ACCESSIBLE | FAILURE_UNKNOWN
| FAILURE_UNSET.

Record t := mk {
  status_ : status;
  url : string;
  times : list Z;
  sizes : list Z;
  tcp_fast_open_support_statuses : list bool
}.
End PageResult.

(** Python truthiness of an optional number ([if result.time:]). *)
Definition truthy (o : option Z) : bool :=
  match o with Some z => negb (z =? 0) | None => false end.

(** [result.status == PageResult.SUCCESS]: both constants are the string
    ['SUCCESS'], so this is the [LoadResult.SUCCESS] test. *)
Definition is_success (r : LoadResult.t) : bool :=
  match LoadResult.status_ r with LoadResult.SUCCESS => true | _ => false end.

(** [if x: xs.append(x)]. *)
Definition append_if_truthy (o : option Z) (xs : list Z) : list Z :=
  match o with
  | Some x => if truthy o then xs ++ [x] else xs
  | None => xs
  end.

(** The loop of [PageResult.__init__] over [load_results]: the accumulated
    times, sizes and fast-open flags, with the two flags
    [was_a_failure], [was_a_success]. *)
Fixpoint pr_fold (rs : list LoadResult.t)
    (times sizes : list Z) (tfo : list bool) (fail succ : bool)
    : list Z * list Z * list bool * bool * bool :=
  match rs with
  | [] => (times, sizes, tfo, fail, succ)
  | r :: rs' =>
      if is_success r then
        pr_fold rs' (append_if_truthy (LoadResult.time r) times)
          (append_if_truthy (LoadResult.size r) sizes)
          (tfo ++ [LoadResult.tcp_fast_open_supported r]) fail true
      else pr_fold rs' times sizes tfo true succ
  end.

(** [PageResult(url, status=status, load_results=load_results)]. *)
Definition PageResult_init (u : string) (status : option PageResult.status)
    (load_results : list LoadResult.t) : PageResult.t :=
  let '(times, sizes, tfo, st) :=
    match load_results with
    | [] => ([], [], [], PageResult.FAILURE_UNSET)
    | _ :: _ =>
        let '(times, sizes, tfo, was_a_failure, was_a_success) :=
          pr_fold load_results [] [] [] false false in
        (times, sizes, tfo,
         if was_a_failure && was_a_success then PageResult.PARTIAL_SUCCESS
         else if was_a_success then PageResult.SUCCESS
         else PageResult.FAILURE_UNKNOWN)
    end in
  let st := match status with Some s => s | None => st end in
  PageResult.mk st u times sizes tfo.

(** ** URL helpers of [Loader] *)

(** The character class of [_sanitize_url]: [r'[/\;,><&*:%=+@!#^()|?^]'].
    Inside a class, [\;] is the escape of [;]: the class holds
    [/ ; , > < & * : % = + @ ! # ^ ( ) | ?] (with [^] listed twice). *)
Definition sanitize_class : string := "/;,><&*:%=+@!#^()|?^".

(** [Loader._sanitize_url]: [re.sub(class, '-', url)]. *)
Definition sanitize_url (u : string) : string :=
  str_map (fun c => if str_mem c sanitize_class then "-"%char else c) u.

(** [Loader._check_url]. *)
Definition check_url (u : string) : string :=
  if str_contains "://" u then u else "http://" +:+ u.

(** ** [urlparse.urlparse] of Python 2.7, as far as it can raise

    [urlsplit] raises [ValueError("Invalid IPv6 URL")] when the network
    location holds a [[] without a []] or the reverse. *)

Definition scheme_char (c : ascii) : bool :=
  let n := nat_of_ascii c in
  ((97 <=? n) && (n <=? 122))%nat || ((65 <=? n) && (n <=? 90))%nat
  || ((48 <=? n) && (n <=? 57))%nat || str_mem c "+-.".

Definition digit_char (c : ascii) : bool := str_mem c "0123456789".

(** The first component of [_splitnetloc(url, 2)]. *)
Fixpoint netloc_upto (s : string) : string :=
  match s with
  | EmptyString => EmptyString
  | String c s' => if str_mem c "/?#" then EmptyString else String c (netloc_upto s')
  end.

Definition netloc (s : string) : string := netloc_upto (str_drop 2 s).

Definition bad_brackets (n : string) : bool :=
  (str_mem "["%char n && negb (str_mem "]"%char n))
  || (str_mem "]"%char n && negb (str_mem "["%char n)).

Definition netloc_raises (s : string) : bool :=
  str_prefixb "//" s && bad_brackets (netloc s).

(** Does [urlsplit(url)] raise? The ['http'] fast path, then the generic
    scheme split (with its port-number exception), then the netloc check. *)
Definition urlsplit_raises (u : string) : bool :=
  match str_find ":"%char u with
  | Some (S j) =>
      let i := S j in
      if String.eqb (str_take i u) "http" then netloc_raises (str_drop (S i) u)
      else
        let rest := str_drop (S i) u in
        let u' := if str_forallb scheme_char (str_take i u)
                     && (String.eqb rest EmptyString || negb (str_forallb digit_char rest))
                  then rest else u in
        netloc_raises u'
  | _ => netloc_raises u
  end.

(** ** The loader *)

(** A Python exception escaping a call, or a returned value. Every exception
    raised here is an [Exception], caught by the [except Exception] clauses. *)
Inductive res (A : Type) := Ok (a : A) | Raise.
Arguments Ok {A} a.
Arguments Raise {A}.

(** Calls the loader makes to the outside, with their outcomes. *)
Inductive event :=
| ESetup (r : res bool)
| ETeardown (r : res unit)
| EProbe (u : string) (r : res bool)
| ELoad (u : string) (trial : nat) (r : res LoadResult.t)
| ELogException.

(** The backend a [Loader] subclass supplies ([_setup], [_teardown],
    [_load_page]), and the network part of [_check_protocol_available]
    (the [requests.get] in its [try], which catches every exception, and
    the scheme comparison). Each may depend on every call made so far. *)
Record backend := {
  setup_hook : list event -> res bool;
  teardown_hook : list event -> res unit;
  load_page_hook : list event -> string -> string -> nat -> res LoadResult.t;
  probe_net : list event -> string -> bool
}.

(** The options of [Loader.__init__] that [load_pages] reads. *)
Record config := {
  outdir : string;
  num_trials : nat;
  retries_per_trial : nat;
  restart_on_fail : bool;
  check_protocol_availability : bool
}.

(** The mutable state of a [Loader]: [_urls], [_load_results] (a
    [defaultdict(list)]), [_page_results], [_num_restarts], and the calls
    made so far. *)
Record loader := {
  trace : list event;
  urls : list string;
  load_results : gmap string (list LoadResult.t);
  page_results : gmap string PageResult.t;
  num_restarts : nat
}.

Definition fresh_loader : loader := Build_loader [] [] ∅ ∅ 0.

Definition M (A : Type) : Type := loader -> res A * loader.

Definition ret {A} (a : A) : M A := fun s => (Ok a, s).

Definition bind {A B} (m : M A) (k : A -> M B) : M B :=
  fun s => match m s with
           | (Ok a, s') => k a s'
           | (Raise, s') => (Raise, s')
           end.

Notation "'do' x <- c1 ; c2" := (bind c1 (fun x => c2))
  (at level 60, c1 at next level, right associativity).
Notation "'do' c1 ; c2" := (bind c1 (fun _ => c2))
  (at level 60, right associativity).

(** [try: m except Exception: h]. *)
Definition try_except {A} (m : M A) (h : M A) : M A :=
  fun s => match m s with
           | (Ok a, s') => (Ok a, s')
           | (Raise, s') => h s'
           end.

(** [try: m finally: f]. *)
Definition try_finally {A} (m : M A) (f : M unit) : M A :=
  fun s => match m s with
           | (r, s') => match f s' with
                        | (Ok _, s'') => (r, s'')
                        | (Raise, s'') => (Raise, s'')
                        end
           end.

Definition when (b : bool) (m : M unit) : M unit := if b then m else ret tt.

Definition emit (e : event) (s : loader) : loader :=
  Build_loader (trace s ++ [e]) (urls s) (load_results s) (page_results s)
    (num_restarts s).

Definition log_exception : M unit := fun s => (Ok tt, emit ELogException s).

Section Loader.
Variable be : backend.
Variable cfg : config.

Definition call_setup : M bool :=
  fun s => let r := setup_hook be (trace s) in (r, emit (ESetup r) s).

Definition call_teardown : M unit :=
  fun s => let r := teardown_hook be (trace s) in (r, emit (ETeardown r) s).

Definition call_load_page (u : string) (i : nat) : M LoadResult.t :=
  fun s => let r := load_page_hook be (trace s) u (outdir cfg) i in
           (r, emit (ELoad u i r) s).

(** [Loader._check_protocol_available]: the [urlparse] of its first line is
    outside the [try]. *)
Definition check_protocol_available (u : string) : M bool :=
  fun s => let r := if urlsplit_raises u then Raise else Ok (probe_net be (trace s) u) in
           (r, emit (EProbe u r) s).

Definition append_url (u : string) : M unit :=
  fun s => (Ok tt, Build_loader (trace s) (urls s ++ [u]) (load_results s)
                     (page_results s) (num_restarts s)).

Definition get_load_results (u : string) : M (list LoadResult.t) :=
  fun s => (Ok (default [] (load_results s !! u)), s).

(** [self._load_results[url].append(result)] on the [defaultdict]. *)
Definition append_load_result (u : string) (r : LoadResult.t) : M unit :=
  fun s => (Ok tt, Build_loader (trace s) (urls s)
                     (<[u := default [] (load_results s !! u) ++ [r]]> (load_results s))
                     (page_results s) (num_restarts s)).

Definition set_page_result (u : string) (p : PageResult.t) : M unit :=
  fun s => (Ok tt, Build_loader (trace s) (urls s) (load_results s)
                     (<[u := p]> (page_results s)) (num_restarts s)).

Definition incr_restarts : M unit :=
  fun s => (Ok tt, Build_loader (trace s) (urls s) (load_results s)
                     (page_results s) (S (num_restarts s))).

(** [self._urls.append(url); self._load_results[url].append(result)]. *)
Definition record (u : string) (r : LoadResult.t) : M unit :=
  do append_url u; append_load_result u r.

(** [self._teardown(); self._setup(); self._num_restarts += 1]. *)
Definition restart : M unit :=
  do call_teardown; do call_setup; incr_restarts.

(** The [while tries_so_far <= self._retries_per_trial] loop of trial [i];
    [fuel] bounds the iterations (it is [S retries_per_trial], as many as
    the guard allows). *)
Fixpoint attempt_loop (u : string) (i : nat) (fuel tries_so_far : nat) : M unit :=
  match fuel with
  | O => ret tt
  | S fuel' =>
      if (tries_so_far <=? retries_per_trial cfg)%nat then
        let tries_so_far := S tries_so_far in
        do result <- call_load_page u i;
        if is_success result then record u result  (* break *)
        else
          do when (retries_per_trial cfg <? tries_so_far)%nat (record u result);
          do when (LoadResult.status_eqb (LoadResult.status_ result) LoadResult.FAILURE_UNKNOWN
                   && restart_on_fail cfg) restart;
          attempt_loop u i fuel' tries_so_far
      else ret tt
  end.

(** One iteration of [for i in range(0, self._num_trials)]. *)
Definition trial (u : string) (i : nat) : M unit :=
  try_except (attempt_loop u i (S (retries_per_trial cfg)) 0) log_exception.

Fixpoint trials (u : string) (is : list nat) : M unit :=
  match is with
  | [] => ret tt
  | i :: is' => do trial u i; trials u is'
  end.

(** One iteration of [for url in urls]. *)
Definition process_url (u0 : string) : M unit :=
  let u := check_url u0 in
  do not_accessible <-
    (if check_protocol_availability cfg then
       do ok <- check_protocol_available u; ret (negb ok)
     else ret false);
  if not_accessible then
    do append_url u;
    set_page_result u (PageResult_init u (Some PageResult.FAILURE_NOT_ACCESSIBLE) [])
  else
    do trials u (seq 0 (num_trials cfg));
    do lr <- get_load_results u;
    set_page_result u (PageResult_init u None lr).

Fixpoint process_urls (us : list string) : M unit :=
  match us with
  | [] => ret tt
  | u :: us' => do process_url u; process_urls us'
  end.

(** [Loader.load_pages]; the [logging.error] of a failed setup is not an
    exception log and is left out. *)
Definition load_pages (us : list string) : M unit :=
  try_finally
    (try_except
       (do ok <- call_setup;
        if ok then process_urls us else ret tt)
       log_exception)
    call_teardown.

(** The URL is loaded: checking is off or the probe says yes. *)
Definition goes_to_trials (u : string) (s : loader) : bool :=
  negb (check_protocol_availability cfg)
  || negb (urlsplit_raises u) && probe_net be (trace s) u.

End Loader.

(** ** The ChromeLoader and PhantomJSLoader backends *)

(** [os.path.join(a, b)] for two components. *)
Definition path_join (a b : string) : string :=
  if str_prefixb "/" b then b
  else if String.eqb a EmptyString then b
  else match String.get (String.length a - 1) a with
       | Some "/"%char => a +:+ b
       | _ => a +:+ "/" +:+ b
       end.

Fixpoint digits_rev (fuel n : nat) : string :=
  match fuel with
  | O => EmptyString
  | S f => String (ascii_of_nat (48 + n mod 10))
             (if (n <? 10)%nat then EmptyString else digits_rev f (n / 10))
  end.

Fixpoint str_rev (s : string) : string :=
  match s with
  | EmptyString => EmptyString
  | String c s' => str_rev s' +:+ String c EmptyString
  end.

(** ['%d' % n] for a natural number. *)
Definition show_nat (n : nat) : string := str_rev (digits_rev (S n) n).

(** The number a string of decimal digits spells, least significant
    digit first. *)
Fixpoint digits_value (s : string) : nat :=
  match s with
  | EmptyString => 0
  | String c s' => (nat_of_ascii c - 48) + 10 * digits_value s'
  end.

(** How the [chrome-har-capturer] subprocess of [ChromeLoader._load_page]
    ends. *)
Inductive capturer_outcome :=
| CapturerDone | CapturerTimeout | CapturerCalledProcessError | CapturerOtherError.

(** [ChromeLoader._load_page(url, outdir, trial_num)]: it returns a
    [LoadResult] on every path. *)
Definition chrome_load_page (save_har : bool) (u od : string) (trial_num : nat)
    (o : capturer_outcome) : LoadResult.t :=
  let safeurl := sanitize_url u in
  let filename := safeurl +:+ "_trial" +:+ show_nat trial_num +:+ ".har" in
  let harpath := if save_har then path_join od filename else "/dev/null" in
  match o with
  | CapturerDone =>
      LoadResult.mk LoadResult.SUCCESS u None None None (Some harpath) None None false
  | CapturerTimeout => LoadResult.make LoadResult.FAILURE_TIMEOUT u
  | CapturerCalledProcessError | CapturerOtherError =>
      LoadResult.make LoadResult.FAILURE_UNKNOWN u
  end.

(** A ChromeLoader whose subprocesses behave as [capturer] says; its
    [_setup] catches every exception and returns a bool. *)
Definition chrome_backend (save_har : bool) (setup_ok : list event -> bool)
    (teardown : list event -> res unit)
    (capturer : list event -> capturer_outcome)
    (net : list event -> string -> bool) : backend := {|
  setup_hook := fun h => Ok (setup_ok h);
  teardown_hook := teardown;
  load_page_hook := fun h u od i => Ok (chrome_load_page save_har u od i (capturer h));
  probe_net := net
|}.

(** The hooks of the base class [Loader]: [_setup] and [_teardown] return
    [True]; [_load_page] is a subclass's. *)
Definition base_backend (load : list event -> string -> string -> nat -> res LoadResult.t)
    (net : list event -> string -> bool) : backend := {|
  setup_hook := fun _ => Ok true;
  teardown_hook := fun _ => Ok tt;
  load_page_hook := load;
  probe_net := net
|}.

(** [PhantomJSLoader] keeps the base hooks, and its [_load_page(self, url,
    outdir)] takes two arguments while [load_pages] passes three
    ([self._load_page(url, self._outdir, i)]): every call raises
    [TypeError]. *)
Definition phantomjs_backend (net : list event -> string -> bool) : backend :=
  base_backend (fun _ _ _ _ => Raise) net.

(** ** Definitions used by the proofs *)

(** The times a list of results contributes: one per [SUCCESS] result
    whose time is truthy, in order. *)
Definition success_times (rs : list LoadResult.t) : list Z :=
  flat_map (fun r => if is_success r then append_if_truthy (LoadResult.time r) [] else []) rs.

Definition success_sizes (rs : list LoadResult.t) : list Z :=
  flat_map (fun r => if is_success r then append_if_truthy (LoadResult.size r) [] else []) rs.

Definition success_tfo (rs : list LoadResult.t) : list bool :=
  flat_map (fun r => if is_success r then [LoadResult.tcp_fast_open_supported r] else []) rs.

(** The outcomes of the [_load_page] calls among some events. *)
Definition loads_of (d : list event) : list (res LoadResult.t) :=
  flat_map (fun e => match e with ELoad _ _ r => [r] | _ => [] end) d.

(** No call among the events raised. *)
Definition no_raise (e : event) : bool :=
  match e with
  | ESetup Raise | ETeardown Raise | EProbe _ Raise | ELoad _ _ Raise => false
  | _ => true
  end.

(** [s'] differs from [s] in the results of [u] only, by [l] appended, and
    not in the page summaries. *)
Record frame (u : string) (s s' : loader) (l : list LoadResult.t) : Prop := {
  frame_here : default [] (load_results s' !! u) = default [] (load_results s !! u) ++ l;
  frame_other : forall k, k <> u -> load_results s' !! k = load_results s !! k;
  frame_pages : page_results s' = page_results s
}.

(** ** Counting calls

    [Bal h w P c]: running [c] moves [h] of the restart counter by the sum
    of the weights [w] of the events it emits, and those events satisfy
    [P]. *)

Definition sumZ (w : event -> Z) (d : list event) : Z :=
  fold_right (fun e acc => w e + acc) 0 d.

Definition Bal {A} (h : nat -> Z) (w : event -> Z) (P : list event -> Prop) (c : M A) : Prop :=
  forall s r s', c s = (r, s') ->
  exists d, trace s' = trace s ++ d /\
    h (num_restarts s') = h (num_restarts s) + sumZ w d /\ P d.

(** Kinds of events. *)
Definition is_unknown_load (e : event) : bool :=
  match e with
  | ELoad _ _ (Ok x) => LoadResult.status_eqb (LoadResult.status_ x) LoadResult.FAILURE_UNKNOWN
  | _ => false
  end.

Definition is_timeout_load (e : event) : bool :=
  match e with
  | ELoad _ _ (Ok x) => LoadResult.status_eqb (LoadResult.status_ x) LoadResult.FAILURE_TIMEOUT
  | _ => false
  end.

Definition is_teardown (e : event) : bool :=
  match e with ETeardown _ => true | _ => false end.

Definition is_setup (e : event) : bool :=
  match e with ESetup _ => true | _ => false end.

Definition count (f : event -> bool) (d : list event) : nat := length (List.filter f d).

(** Every [FAILURE_UNKNOWN] result is followed at once by a teardown and a
    setup that return. *)
Definition restarts_follow (d : list event) : Prop :=
  forall d1 e d2, d = d1 ++ e :: d2 -> is_unknown_load e = true ->
  exists b d3, d2 = ETeardown (Ok tt) :: ESetup (Ok b) :: d3.

(** The hooks of the backend contract return. *)
Definition hooks_return (be : backend) : Prop :=
  (forall hist, exists b, setup_hook be hist = Ok b) /\
  (forall hist, teardown_hook be hist = Ok tt).

(** A setup call that returned. *)
Definition is_ok_setup (e : event) : bool :=
  match e with ESetup (Ok _) => true | _ => false end.

(** Every [FAILURE_UNKNOWN] result is followed at once by a teardown and,
    when that teardown returned, by a setup; and every setup comes right
    after such a result and a teardown that returned. *)
Definition restarts_tried (d : list event) : Prop :=
  (forall d1 e d2, d = d1 ++ e :: d2 -> is_unknown_load e = true ->
     exists rt d3, d2 = ETeardown rt :: d3 /\
       (rt = Ok tt -> exists rs d4, d3 = ESetup rs :: d4)) /\
  (forall d1 rs d2, d = d1 ++ ESetup rs :: d2 ->
     exists d0 e, d1 = d0 ++ [e; ETeardown (Ok tt)] /\ is_unknown_load e = true).

(** Each page summary is a [FAILURE_NOT_ACCESSIBLE] one without times, or
    the summary of the results its key has. *)
Definition summaries_ok (s : loader) : Prop :=
  forall k p, page_results s !! k = Some p ->
  (PageResult.status_ p = PageResult.FAILURE_NOT_ACCESSIBLE /\ PageResult.times p = []) \/
  p = PageResult_init k None (default [] (load_results s !! k)).

(** How many submitted URLs [_check_url] maps to [k]. *)
Definition count_key (k : string) (us : list string) : nat :=
  length (List.filter (fun x => String.eqb (check_url x) k) us).

(** [I] holds after running [c] whenever it held before. *)
Definition Inv {A} (I : loader -> Prop) (c : M A) : Prop :=
  forall s r s', I s -> c s = (r, s') -> I s'.

(** Every result recorded satisfies [Pres]. *)
Definition results_sat (Pres : LoadResult.t -> Prop) (s : loader) : Prop :=
  forall k rs, load_results s !! k = Some rs -> Forall Pres rs.

(** Each page summary is the [FAILURE_NOT_ACCESSIBLE] one of
    [load_pages], or the summary of the results its key has. *)
Definition summaries_from (s : loader) : Prop :=
  forall k p, page_results s !! k = Some p ->
  p = PageResult_init k (Some PageResult.FAILURE_NOT_ACCESSIBLE) [] \/
  p = PageResult_init k None (default [] (load_results s !! k)).

(** No page summary is a [FAILURE_NOT_ACCESSIBLE] one. *)
Definition no_na (s : loader) : Prop :=
  forall k p, page_results s !! k = Some p ->
  PageResult.status_ p <> PageResult.FAILURE_NOT_ACCESSIBLE.

(** A protocol check that answered [False] (for the URL [k]). *)
Definition is_na_probe (e : event) : bool :=
  match e with EProbe _ (Ok false) => true | _ => false end.

Definition is_na_probe_of (k : string) (e : event) : bool :=
  match e with EProbe u (Ok false) => String.eqb u k | _ => false end.

(** [self._urls.count(k)]. *)
Definition url_count (k : string) (us : list string) : nat :=
  length (List.filter (String.eqb k) us).

(** [_urls] lists a URL once per result recorded for it and once per
    protocol check that found it not accessible. *)
Definition urls_accounted (s : loader) : Prop :=
  forall k, url_count k (urls s) =
            (length (default [] (load_results s !! k)) + count (is_na_probe_of k) (trace s))%nat.

(** ** Concrete runs *)

Definition ex_config (n retries : nat) (restart check : bool) : config := {|
  outdir := "out"; num_trials := n; retries_per_trial := retries;
  restart_on_fail := restart; check_protocol_availability := check |}.

(** A successful load that took 5 time units. *)
Definition timed_success (u : string) : LoadResult.t :=
  LoadResult.mk LoadResult.SUCCESS u None (Some 5) None None None None false.

(** A backend whose loads succeed, behind a prober that answers [ok]. *)
Definition ex_backend (ok : bool) : backend :=
  base_backend (fun _ u _ _ => Ok (timed_success u)) (fun _ _ => ok).

(** A backend whose first [n] loads fail with [st], and later ones
    succeed. *)
Definition flaky_backend (st : LoadResult.status) (n : nat) : backend :=
  base_backend
    (fun h u _ _ => if (length (loads_of h) <? n)%nat then Ok (LoadResult.make st u)
                    else Ok (timed_success u))
    (fun _ _ => true).

(** A ChromeLoader whose capturer always completes. *)
Definition ex_chrome : backend :=
  chrome_backend false (fun _ => true) (fun _ => Ok tt) (fun _ => CapturerDone)
    (fun _ _ => true).

Ltac frame_triv := split; simpl; [by rewrite app_nil_r|done..].

(** ** Facts about the helpers *)

Lemma str_get_map (f : ascii -> ascii) (u : string) (n : nat) (c : ascii) :
  String.get n u = Some c -> String.get n (str_map f u) = Some (f c).
Proof.
  revert n; induction u as [|d u IH]; intros n H; [discriminate|].
  destruct n as [|n]; simpl in *; [congruence|auto].
Qed.

Lemma str_length_map (f : ascii -> ascii) (u : string) :
  String.length (str_map f u) = String.length u.
Proof. induction u; simpl; congruence. Qed.

Lemma sanitize_class_mem (c : ascii) :
  str_mem c sanitize_class = str_mem c "/;,><&*:%=+@!#^()|?".
Proof. destruct c as [[] [] [] [] [] [] [] []]; reflexivity. Qed.

Lemma append_if_truthy_app (o : option Z) (xs : list Z) :
  append_if_truthy o xs = xs ++ append_if_truthy o [].
Proof. destruct o as [x|]; simpl; [destruct (negb (x =? 0))|]; simpl; auto using app_nil_r. Qed.

Lemma pr_fold_spec (rs : list LoadResult.t) times sizes tfo f s :
  pr_fold rs times sizes tfo f s =
  (times ++ success_times rs, sizes ++ success_sizes rs, tfo ++ success_tfo rs,
   f || existsb (fun r => negb (is_success r)) rs, s || existsb is_success rs).
Proof.
  revert times sizes tfo f s.
  induction rs as [|r rs IH]; intros times sizes tfo f s; simpl.
  - rewrite !app_nil_r, orb_false_r, orb_false_r. reflexivity.
  - destruct (is_success r) eqn:E; simpl; rewrite IH.
    + rewrite (append_if_truthy_app (LoadResult.time r)),
        (append_if_truthy_app (LoadResult.size r)), <- !app_assoc, ?orb_true_r.
      reflexivity.
    + rewrite orb_true_r. reflexivity.
Qed.

Lemma PageResult_init_results (u : string) (rs : list LoadResult.t) :
  PageResult_init u None rs =
  PageResult.mk
    (match rs with
     | [] => PageResult.FAILURE_UNSET
     | _ :: _ =>
         if existsb (fun r => negb (is_success r)) rs && existsb is_success rs
         then PageResult.PARTIAL_SUCCESS
         else if existsb is_success rs then PageResult.SUCCESS
         else PageResult.FAILURE_UNKNOWN
     end) u (success_times rs) (success_sizes rs) (success_tfo rs).
Proof.
  unfold PageResult_init. destruct rs as [|r rs]; [reflexivity|].
  rewrite pr_fold_spec. reflexivity.
Qed.

Lemma length_success_times (rs : list LoadResult.t) :
  length (success_times rs) =
  length (List.filter (fun r => is_success r && truthy (LoadResult.time r)) rs).
Proof.
  induction rs as [|r rs IH]; [reflexivity|]. simpl.
  rewrite length_app, IH.
  destruct (is_success r), (LoadResult.time r) as [x|] eqn:E; simpl; auto.
  destruct (x =? 0); reflexivity.
Qed.

(** ** Facts about the loader *)

Lemma frame_refl (u : string) (s : loader) : frame u s s [].
Proof. split; [by rewrite app_nil_r|done..]. Qed.

Lemma frame_trans (u : string) (s1 s2 s3 : loader) (l1 l2 : list LoadResult.t) :
  frame u s1 s2 l1 -> frame u s2 s3 l2 -> frame u s1 s3 (l1 ++ l2).
Proof.
  intros [H1 H2 H3] [H1' H2' H3']. split.
  - by rewrite H1', H1, app_assoc.
  - intros k Hk. by rewrite H2', H2.
  - congruence.
Qed.

Lemma frame_emit (u : string) (e : event) (s : loader) : frame u s (emit e s) [].
Proof. split; [by rewrite app_nil_r|done..]. Qed.

Lemma loads_of_app (d1 d2 : list event) : loads_of (d1 ++ d2) = loads_of d1 ++ loads_of d2.
Proof. apply flat_map_app. Qed.

Lemma no_raise_app (d1 d2 : list event) :
  forallb no_raise (d1 ++ d2) = forallb no_raise d1 && forallb no_raise d2.
Proof. apply forallb_app. Qed.

Section Facts.
Variable be : backend.
Variable cfg : config.

Lemma record_spec (u : string) (x : LoadResult.t) (s : loader) :
  record u x s = (Ok tt, Build_loader (trace s) (urls s ++ [u])
     (<[u := default [] (load_results s !! u) ++ [x]]> (load_results s))
     (page_results s) (num_restarts s)).
Proof. reflexivity. Qed.

Lemma record_frame (u : string) (x : LoadResult.t) (s s' : loader) r :
  record u x s = (r, s') -> r = Ok tt /\ trace s' = trace s /\ frame u s s' [x]
    /\ num_restarts s' = num_restarts s.
Proof.
  rewrite record_spec. intros [= <- <-]. simpl. split_and!; try done.
  split; simpl; try done.
  - by rewrite lookup_insert_eq.
  - intros k Hk. by rewrite lookup_insert_ne.
Qed.

Lemma restart_spec (u : string) (s s' : loader) r :
  restart be s = (r, s') ->
  exists d, trace s' = trace s ++ d /\ frame u s s' [] /\ loads_of d = [] /\
    (r = Ok tt <-> forallb no_raise d = true).
Proof.
  unfold restart, bind, call_teardown, call_setup, incr_restarts.
  destruct (teardown_hook be (trace s)) as [[]|] eqn:Ht; simpl.
  - destruct (setup_hook be (trace s ++ [ETeardown (Ok ())])) as [b|] eqn:Hs;
      intros [= <- <-]; simpl.
    + exists [ETeardown (Ok ()); ESetup (Ok b)]. rewrite <- app_assoc.
      split_and!; try done. frame_triv.
    + exists [ETeardown (Ok ()); ESetup Raise]. rewrite <- app_assoc.
      split_and!; try done. frame_triv.
  - intros [= <- <-]. exists [ETeardown Raise]. split_and!; try done. frame_triv.
Qed.

Lemma when_restart_spec (b : bool) (u : string) (s s' : loader) r :
  when b (restart be) s = (r, s') ->
  exists d, trace s' = trace s ++ d /\ frame u s s' [] /\ loads_of d = [] /\
    (r = Ok tt <-> forallb no_raise d = true).
Proof.
  destruct b; simpl; [apply restart_spec|].
  intros [= <- <-]. exists []. rewrite app_nil_r. split_and!; try done. frame_triv.
Qed.

Lemma attempt_loop_spec (u : string) (i k t : nat) (s s' : loader) r :
  (t + k = S (retries_per_trial cfg))%nat ->
  attempt_loop be cfg u i k t s = (r, s') ->
  exists d l, trace s' = trace s ++ d /\ frame u s s' l /\ (length l <= 1)%nat /\
    (length (loads_of d) <= k)%nat /\
    (r = Ok tt <-> forallb no_raise d = true) /\
    (forallb no_raise d = true -> (0 < k)%nat ->
       exists rs x, loads_of d = map Ok (rs ++ [x]) /\
         Forall (fun y => is_success y = false) rs /\
         (is_success x = true \/ (t + length rs = retries_per_trial cfg)%nat) /\
         l = [x]).
Proof.
  induction k as [|k IH] in t, s, r, s' |- *; intros Hk H.
  - cbn [attempt_loop ret] in H. injection H as <- <-.
    exists [], []. rewrite app_nil_r. split_and!; try done; [frame_triv|simpl; lia|intros _ Hc; lia].
  - cbn [attempt_loop] in H.
    assert (Hg : (t <=? retries_per_trial cfg)%nat = true) by (apply Nat.leb_le; lia).
    rewrite Hg in H. unfold bind at 1, call_load_page in H.
    destruct (load_page_hook be (trace s) u (outdir cfg) i) as [x|] eqn:Hl.
    2:{ injection H as <- <-. exists [ELoad u i Raise], []. simpl.
        split_and!; try done; try apply frame_emit; try lia;
        try (split; discriminate); try (intros; discriminate). }
    set (s1 := emit (ELoad u i (Ok x)) s) in H.
    destruct (is_success x) eqn:Hx.
    + apply record_frame in H as (-> & Ht & Hf & _).
      exists [ELoad u i (Ok x)], [x]. simpl in Ht |- *.
      split_and!; try done; try lia.
      * replace [x] with ([] ++ [x]) by done. eapply frame_trans; [apply frame_emit|exact Hf].
      * intros _ _. exists [], x. split_and!; auto.
    + destruct (retries_per_trial cfg <? S t)%nat eqn:Hlt.
      * (* the last try: the failure is recorded *)
        apply Nat.ltb_lt in Hlt. assert (k = 0%nat) as -> by lia.
        unfold bind at 1 in H. cbn [when] in H.
        destruct (record u x s1) as [r2 s2] eqn:Hr.
        apply record_frame in Hr as (-> & Ht2 & Hf2 & _).
        unfold bind in H.
        destruct (when _ (restart be) s2) as [r3 s3] eqn:Hw.
        assert (H' : r3 = r /\ s3 = s')
          by (destruct r3 as [[]|]; cbn [attempt_loop ret] in H; now injection H as <- <-).
        destruct H' as [<- <-]. clear H.
        apply (when_restart_spec _ u) in Hw as (d3 & Ht3 & Hf3 & Hl3 & Hr3).
        exists ([ELoad u i (Ok x)] ++ d3), [x].
        split; [rewrite Ht3, Ht2; unfold s1; simpl; by rewrite <- app_assoc|].
        split; [replace [x] with (([] ++ [x]) ++ []) by done;
                eapply frame_trans; [eapply frame_trans; [apply frame_emit|exact Hf2]|exact Hf3]|].
        rewrite loads_of_app, no_raise_app, Hl3; simpl. split_and!; try lia.
        -- exact Hr3.
        -- intros _ _. exists [], x. split_and!; simpl; auto. lia.
      * apply Nat.ltb_ge in Hlt.
        unfold bind at 1 in H. cbn [when ret] in H.
        unfold bind in H.
        destruct (when _ (restart be) s1) as [[[]|] s3] eqn:Hw;
          apply (when_restart_spec _ u) in Hw as (d3 & Ht3 & Hf3 & Hl3 & Hr3).
        -- apply IH in H as (d4 & l4 & Ht4 & Hf4 & Hl4 & Hn4 & Hr4 & Hs4); [|lia].
           exists ([ELoad u i (Ok x)] ++ d3 ++ d4), l4.
           split; [rewrite Ht4, Ht3; unfold s1; simpl; by rewrite <- !app_assoc|].
           split; [replace l4 with (([] ++ []) ++ l4) by done;
                   eapply frame_trans; [eapply frame_trans; [apply frame_emit|exact Hf3]|exact Hf4]|].
           assert (Hd3 : forallb no_raise d3 = true) by (apply Hr3; done).
           rewrite ?loads_of_app, ?no_raise_app, Hl3, Hd3; simpl.
           split_and!; try lia; [exact Hr4|].
           intros Hd4 _. destruct k as [|k]; [lia|].
           destruct (Hs4 Hd4 ltac:(lia)) as (rs & y & Hy1 & Hy2 & Hy3 & Hy4).
           exists (x :: rs), y. rewrite Hy1. simpl. split_and!; auto.
           destruct Hy3; [left; done|right; lia].
        -- injection H as <- <-. exists ([ELoad u i (Ok x)] ++ d3), [].
           split; [rewrite Ht3; unfold s1; simpl; by rewrite <- app_assoc|].
           split; [replace (@nil LoadResult.t) with (([] : list LoadResult.t) ++ []) by done;
                   eapply frame_trans; [apply frame_emit|exact Hf3]|].
           assert (Hd3 : forallb no_raise d3 = false)
             by (destruct (forallb no_raise d3); [destruct Hr3 as [_ Hc]; discriminate (Hc eq_refl)|done]).
           rewrite ?loads_of_app, ?no_raise_app, Hl3, Hd3; simpl.
           split_and!; try done; lia.
Qed.

End Facts.

Section Facts2.
Variable be : backend.
Variable cfg : config.

Lemma trial_spec (u : string) (i : nat) (s s' : loader) r :
  trial be cfg u i s = (r, s') ->
  r = Ok tt /\
  exists d l, trace s' = trace s ++ d /\ frame u s s' l /\ (length l <= 1)%nat /\
    (length (loads_of d) <= S (retries_per_trial cfg))%nat /\
    (forallb no_raise d = true ->
       exists rs x, loads_of d = map Ok (rs ++ [x]) /\
         Forall (fun y => is_success y = false) rs /\
         (is_success x = true \/ length rs = retries_per_trial cfg) /\ l = [x]) /\
    (forallb no_raise d = false -> last d = Some ELogException).
Proof.
  unfold trial, try_except.
  destruct (attempt_loop be cfg u i (S (retries_per_trial cfg)) 0 s) as [r1 s1] eqn:H.
  apply attempt_loop_spec in H as (d & l & Ht & Hf & Hl & Hn & Hr & Hs); [|lia].
  destruct r1 as [[]|].
  - intros [= <- <-]. split; [done|]. exists d, l. split_and!; try done.
    + intros Hd. apply Hs; [done|lia].
    + intros Hd. destruct Hr as [Hr _]. rewrite (Hr eq_refl) in Hd. discriminate.
  - unfold log_exception. intros [= <- <-]. split; [done|].
    assert (Hd : forallb no_raise d = false)
      by (destruct (forallb no_raise d); [destruct Hr as [_ Hc]; discriminate (Hc eq_refl)|done]).
    exists (d ++ [ELogException]), l. simpl. rewrite Ht, app_assoc.
    split; [done|]. split.
    { assert (Hf' : frame u s (emit ELogException s1) (l ++ []))
        by (eapply frame_trans; [exact Hf|apply frame_emit]).
      by rewrite app_nil_r in Hf'. }
    rewrite loads_of_app, no_raise_app, Hd, app_nil_r. simpl.
    split_and!; try done. by rewrite last_snoc.
Qed.

Lemma trials_spec (u : string) (is : list nat) (s s' : loader) r :
  trials be cfg u is s = (r, s') ->
  r = Ok tt /\ exists d l, trace s' = trace s ++ d /\ frame u s s' l /\
    (length l <= length is)%nat.
Proof.
  induction is as [|i is IH] in s, s', r |- *; simpl.
  - intros [= <- <-]. split; [done|]. exists [], []. rewrite app_nil_r.
    split_and!; [done|apply frame_refl|simpl; lia].
  - unfold bind. destruct (trial be cfg u i s) as [r1 s1] eqn:H1.
    apply trial_spec in H1 as (-> & d1 & l1 & Ht1 & Hf1 & Hl1 & _).
    intros H. apply IH in H as (-> & d2 & l2 & Ht2 & Hf2 & Hl2).
    split; [done|]. exists (d1 ++ d2), (l1 ++ l2).
    split_and!.
    + by rewrite Ht2, Ht1, app_assoc.
    + eapply frame_trans; eassumption.
    + rewrite length_app. lia.
Qed.

Lemma process_url_probe_raises (u0 : string) (s : loader) :
  check_protocol_availability cfg = true -> urlsplit_raises (check_url u0) = true ->
  process_url be cfg u0 s = (Raise, emit (EProbe (check_url u0) Raise) s).
Proof.
  intros Hc Hu. unfold process_url. rewrite Hc.
  unfold bind, check_protocol_available. rewrite Hu. reflexivity.
Qed.

Lemma process_url_not_accessible (u0 : string) (s : loader) :
  check_protocol_availability cfg = true ->
  urlsplit_raises (check_url u0) = false ->
  probe_net be (trace s) (check_url u0) = false ->
  process_url be cfg u0 s =
  (Ok tt, Build_loader (trace s ++ [EProbe (check_url u0) (Ok false)])
            (urls s ++ [check_url u0]) (load_results s)
            (<[check_url u0 := PageResult_init (check_url u0)
                 (Some PageResult.FAILURE_NOT_ACCESSIBLE) []]> (page_results s))
            (num_restarts s)).
Proof.
  intros Hc Hu Hp. unfold process_url. rewrite Hc.
  unfold bind, check_protocol_available. rewrite Hu, Hp. reflexivity.
Qed.

Lemma trial_path_spec (u : string) (s s' : loader) r :
  (do trials be cfg u (seq 0 (num_trials cfg));
   do lr <- get_load_results u;
   set_page_result u (PageResult_init u None lr)) s = (r, s') ->
  r = Ok tt /\
  exists d l, trace s' = trace s ++ d /\ (length l <= num_trials cfg)%nat /\
    default [] (load_results s' !! u) = default [] (load_results s !! u) ++ l /\
    (forall k, k <> u -> load_results s' !! k = load_results s !! k) /\
    page_results s' = <[u := PageResult_init u None
                          (default [] (load_results s' !! u))]> (page_results s).
Proof.
  unfold bind at 1. destruct (trials be cfg u _ s) as [r1 s1] eqn:H1.
  apply trials_spec in H1 as (-> & d & l & Ht & [Hh Ho Hp] & Hl).
  rewrite length_seq in Hl. intros [= <- <-]. split; [done|].
  exists d, l. simpl. split_and!; try done. by rewrite Hp.
Qed.

Lemma process_url_trials (u0 : string) (s s' : loader) r :
  goes_to_trials be cfg (check_url u0) s = true ->
  process_url be cfg u0 s = (r, s') ->
  r = Ok tt /\
  exists d l, trace s' = trace s ++ d /\ (length l <= num_trials cfg)%nat /\
    default [] (load_results s' !! check_url u0)
      = default [] (load_results s !! check_url u0) ++ l /\
    (forall k, k <> check_url u0 -> load_results s' !! k = load_results s !! k) /\
    page_results s' = <[check_url u0 := PageResult_init (check_url u0) None
                          (default [] (load_results s' !! check_url u0))]> (page_results s).
Proof.
  unfold goes_to_trials, process_url. set (u := check_url u0). intros Hg.
  destruct (check_protocol_availability cfg) eqn:Hc; simpl in Hg.
  - apply andb_true_iff in Hg as [Hu Hp]. apply negb_true_iff in Hu.
    assert (Hpb : (do ok <- check_protocol_available be u; ret (negb ok)) s
                  = (Ok false, emit (EProbe u (Ok true)) s))
      by (unfold bind, check_protocol_available; rewrite Hu, Hp; reflexivity).
    unfold bind at 1. rewrite Hpb. intros H. apply trial_path_spec in H as (-> & d & l & Ht & Hl & Hh & Ho & Hpr).
    split; [done|]. exists (EProbe u (Ok true) :: d), l. rewrite Ht. simpl.
    split_and!; try done. by rewrite <- app_assoc.
  - unfold bind at 1. cbn [ret negb].
    intros H. apply trial_path_spec in H as (-> & d & l & Ht & Hl & Hh & Ho & Hpr).
    split; [done|]. exists d, l. split_and!; done.
Qed.

(** Only the protocol check's [urlparse] makes a URL's processing raise. *)
Lemma process_url_raise (u0 : string) (s s' : loader) :
  process_url be cfg u0 s = (Raise, s') ->
  check_protocol_availability cfg = true /\ urlsplit_raises (check_url u0) = true /\
  s' = emit (EProbe (check_url u0) Raise) s.
Proof.
  destruct (check_protocol_availability cfg) eqn:Hc.
  - destruct (urlsplit_raises (check_url u0)) eqn:Hu.
    + rewrite process_url_probe_raises by done. intros [= <-]. done.
    + destruct (probe_net be (trace s) (check_url u0)) eqn:Hp.
      * intros H. apply process_url_trials in H as [? _]; [discriminate|].
        unfold goes_to_trials. by rewrite Hc, Hu, Hp.
      * rewrite process_url_not_accessible by done. discriminate.
  - intros H. apply process_url_trials in H as [? _]; [discriminate|].
    unfold goes_to_trials. by rewrite Hc.
Qed.

End Facts2.

Lemma sumZ_app (w : event -> Z) (d1 d2 : list event) :
  sumZ w (d1 ++ d2) = sumZ w d1 + sumZ w d2.
Proof. induction d1 as [|e d1 IH]; simpl; [done|]. rewrite IH. lia. Qed.

Section Balance.
Variable be : backend.
Variable cfg : config.
Variable h : nat -> Z.
Variable w : event -> Z.
Variable P : list event -> Prop.
Hypothesis P_nil : P [].
Hypothesis P_app : forall d1 d2, P d1 -> P d2 -> P (d1 ++ d2).
Hypothesis w_setup : forall r, w (ESetup r) = 0 /\ P [ESetup r].
Hypothesis w_probe : forall u r, w (EProbe u r) = 0 /\ P [EProbe u r].
Hypothesis w_log : w ELogException = 0 /\ P [ELogException].
Hypothesis w_load_raise : forall u i, w (ELoad u i Raise) = 0 /\ P [ELoad u i Raise].
Hypothesis w_load_success : forall u i x, is_success x = true ->
  w (ELoad u i (Ok x)) = 0 /\ P [ELoad u i (Ok x)].
(** What a failed attempt may trigger balances the attempt's weight. *)
Hypothesis restart_balance : forall u i x s r s',
  is_success x = false ->
  when (LoadResult.status_eqb (LoadResult.status_ x) LoadResult.FAILURE_UNKNOWN
        && restart_on_fail cfg) (restart be) s = (r, s') ->
  exists d, trace s' = trace s ++ d /\
    h (num_restarts s') = h (num_restarts s) + w (ELoad u i (Ok x)) + sumZ w d /\
    P (ELoad u i (Ok x) :: d).

Lemma Bal_ret {A} (a : A) : Bal h w P (ret a).
Proof. intros s r s' [= <- <-]. exists []. rewrite app_nil_r. split_and!; [done|simpl; lia|done]. Qed.

Lemma Bal_bind {A B} (c : M A) (k : A -> M B) :
  Bal h w P c -> (forall a, Bal h w P (k a)) -> Bal h w P (bind c k).
Proof.
  intros Hc Hk s r s'. unfold bind. destruct (c s) as [[a|] s1] eqn:E.
  - intros H. apply Hc in E as (d1 & Ht1 & Hh1 & HP1). apply Hk in H as (d2 & Ht2 & Hh2 & HP2).
    exists (d1 ++ d2). rewrite Ht2, Ht1, app_assoc, sumZ_app. split_and!; [done|lia|auto].
  - intros [= <- <-]. by apply Hc in E.
Qed.

Lemma Bal_try_except {A} (c h' : M A) :
  Bal h w P c -> Bal h w P h' -> Bal h w P (try_except c h').
Proof.
  intros Hc Hh s r s'. unfold try_except. destruct (c s) as [[a|] s1] eqn:E.
  - intros [= <- <-]. by apply Hc in E.
  - intros H. apply Hc in E as (d1 & Ht1 & Hh1 & HP1). apply Hh in H as (d2 & Ht2 & Hh2 & HP2).
    exists (d1 ++ d2). rewrite Ht2, Ht1, app_assoc, sumZ_app. split_and!; [done|lia|auto].
Qed.

(** A step that emits nothing and leaves the counter alone. *)
Lemma Bal_silent {A} (c : M A) :
  (forall s, trace (c s).2 = trace s /\ num_restarts (c s).2 = num_restarts s) -> Bal h w P c.
Proof.
  intros Hc s r s' H. destruct (Hc s) as [Ht Hn]. rewrite H in Ht, Hn. simpl in Ht, Hn.
  exists []. rewrite app_nil_r, Ht, Hn. split_and!; [done|simpl; lia|done].
Qed.

(** A step that emits one event of weight [0] and leaves the counter alone. *)
Lemma Bal_emit1 {A} (c : M A) :
  (forall s, exists e, trace (c s).2 = trace s ++ [e] /\ (w e = 0 /\ P [e]) /\
     num_restarts (c s).2 = num_restarts s) -> Bal h w P c.
Proof.
  intros Hc s r s' H. destruct (Hc s) as (e & Ht & [Hw HP] & Hn). rewrite H in Ht, Hn.
  simpl in Ht, Hn. exists [e]. rewrite Ht, Hn. split_and!; [done|simpl; lia|done].
Qed.

Lemma when_record_silent (b : bool) (u : string) (x : LoadResult.t) (s : loader) :
  exists s', when b (record u x) s = (Ok tt, s') /\ trace s' = trace s /\
    num_restarts s' = num_restarts s.
Proof. destruct b; eexists; split_and!; reflexivity. Qed.

Lemma Bal_attempt_loop (u : string) (i k t : nat) : Bal h w P (attempt_loop be cfg u i k t).
Proof.
  induction k as [|k IH] in t |- *; cbn [attempt_loop]; [apply Bal_ret|].
  destruct (t <=? retries_per_trial cfg)%nat; [|apply Bal_ret].
  intros s r s'. unfold bind at 1, call_load_page.
  destruct (load_page_hook be (trace s) u (outdir cfg) i) as [x|] eqn:Hl.
  2:{ intros [= <- <-]. exists [ELoad u i Raise]. simpl. destruct (w_load_raise u i) as [-> ?].
      split_and!; [done|lia|done]. }
  set (s1 := emit (ELoad u i (Ok x)) s).
  destruct (is_success x) eqn:Hx.
  - destruct (when_record_silent true u x s1) as (s2 & E2 & Ht2 & Hn2). simpl in E2.
    rewrite E2. intros [= <- <-]. exists [ELoad u i (Ok x)].
    unfold s1 in Ht2, Hn2. simpl in Ht2, Hn2 |- *. rewrite Ht2, Hn2.
    destruct (w_load_success u i x Hx) as [-> ?]. split_and!; [done|lia|done].
  - destruct (when_record_silent (retries_per_trial cfg <? S t)%nat u x s1) as (s2 & E2 & Ht2 & Hn2).
    unfold bind at 1. rewrite E2.
    unfold bind. destruct (when _ (restart be) s2) as [[[]|] s3] eqn:E3;
      apply (restart_balance u i x) in E3 as (d3 & Ht3 & Hh3 & HP3); try done;
      unfold s1 in Ht2, Hn2; simpl in Ht2, Hn2; rewrite Hn2 in Hh3.
    + intros H. apply IH in H as (d4 & Ht4 & Hh4 & HP4).
      exists ((ELoad u i (Ok x) :: d3) ++ d4). simpl.
      rewrite Ht4, Ht3, Ht2, !sumZ_app, <- !app_assoc. split_and!; [done|simpl; lia|].
      change (P ((ELoad u i (Ok x) :: d3) ++ d4)). auto.
    + intros [= <- <-]. exists (ELoad u i (Ok x) :: d3).
      rewrite Ht3, Ht2, <- !app_assoc. split_and!; [done|simpl; lia|done].
Qed.

Lemma Bal_log : Bal h w P log_exception.
Proof. apply Bal_emit1. intros s. exists ELogException. split_and!; try done; apply w_log. Qed.

Lemma Bal_call_setup : Bal h w P (call_setup be).
Proof. apply Bal_emit1. intros s. eexists. split_and!; [reflexivity|apply w_setup..|done]. Qed.

Lemma Bal_probe (u : string) : Bal h w P (check_protocol_available be u).
Proof. apply Bal_emit1. intros s. eexists. split_and!; [reflexivity|apply w_probe..|done]. Qed.

Lemma Bal_trial (u : string) (i : nat) : Bal h w P (trial be cfg u i).
Proof. apply Bal_try_except; [apply Bal_attempt_loop|apply Bal_log]. Qed.

Lemma Bal_trials (u : string) (is : list nat) : Bal h w P (trials be cfg u is).
Proof.
  induction is as [|i is IH]; simpl; [apply Bal_ret|].
  apply Bal_bind; [apply Bal_trial|intros; apply IH].
Qed.

Lemma Bal_process_url (u0 : string) : Bal h w P (process_url be cfg u0).
Proof.
  unfold process_url. apply Bal_bind.
  - destruct (check_protocol_availability cfg);
      [apply Bal_bind; [apply Bal_probe|intros; apply Bal_ret]|apply Bal_ret].
  - intros b; destruct b; apply Bal_bind.
    + apply Bal_silent. intros s. split; reflexivity.
    + intros _. apply Bal_silent. intros s. split; reflexivity.
    + apply Bal_trials.
    + intros _. apply Bal_bind; [apply Bal_silent; intros s; split; reflexivity|].
      intros lr. apply Bal_silent. intros s. split; reflexivity.
Qed.

Lemma Bal_process_urls (us : list string) : Bal h w P (process_urls be cfg us).
Proof.
  induction us as [|u us IH]; simpl; [apply Bal_ret|].
  apply Bal_bind; [apply Bal_process_url|intros; apply IH].
Qed.

(** Everything [load_pages] does before its [finally] clause. *)
Lemma Bal_load_pages_body (us : list string) :
  Bal h w P (try_except (do ok <- call_setup be; if ok then process_urls be cfg us else ret tt)
             log_exception).
Proof.
  apply Bal_try_except; [|apply Bal_log].
  apply Bal_bind; [apply Bal_call_setup|intros b; destruct b; [apply Bal_process_urls|apply Bal_ret]].
Qed.

End Balance.

Lemma count_app (f : event -> bool) (d1 d2 : list event) :
  count f (d1 ++ d2) = (count f d1 + count f d2)%nat.
Proof. unfold count. by rewrite List.filter_app, length_app. Qed.

Lemma sumZ_indicator (f g : event -> bool) (d : list event) :
  sumZ (fun e => (if f e then 1 else 0) - (if g e then 1 else 0)) d
  = Z.of_nat (count f d) - Z.of_nat (count g d).
Proof.
  unfold count. induction d as [|e d IH]; simpl; [done|].
  rewrite IH. destruct (f e), (g e); simpl; lia.
Qed.

Lemma restarts_follow_nil : restarts_follow [].
Proof. intros d1 e d2 H. destruct d1; discriminate. Qed.

Lemma restarts_follow_single (e : event) : is_unknown_load e = false -> restarts_follow [e].
Proof.
  intros He d1 e' d2 H. destruct d1 as [|? [|]]; simpl in H; try discriminate.
  injection H as -> _. congruence.
Qed.

Lemma restarts_follow_app (d1 d2 : list event) :
  restarts_follow d1 -> restarts_follow d2 -> restarts_follow (d1 ++ d2).
Proof.
  intros H1 H2 a e b Heq He.
  apply List.app_eq_app in Heq as [l [[-> Hl]|[-> Hl]]].
  - destruct l as [|e' l]; simpl in Hl.
    + rewrite app_nil_r in H1. subst d2. apply (H2 [] e b); done.
    + injection Hl as He' Hb. subst e' b.
      destruct (H1 a e l eq_refl He) as (bb & d3 & ->).
      exists bb, (d3 ++ d2). done.
  - apply (H2 l e b Hl He).
Qed.

Lemma load_pages_final (be : backend) (cfg : config) (us : list string) (s s' : loader) r :
  load_pages be cfg us s = (r, s') ->
  exists rb s2,
    try_except (do ok <- call_setup be; if ok then process_urls be cfg us else ret tt)
      log_exception s = (rb, s2) /\
    s' = emit (ETeardown (teardown_hook be (trace s2))) s2 /\
    r = match teardown_hook be (trace s2) with Ok _ => rb | Raise => Raise end.
Proof.
  unfold load_pages, try_finally, call_teardown.
  destruct (try_except _ _ s) as [rb s2]. intros H. exists rb, s2.
  destruct (teardown_hook be (trace s2)); injection H as <- <-; done.
Qed.

Lemma restarts_follow_chunk (u : string) (i : nat) (x : LoadResult.t) (b : bool) :
  restarts_follow [ELoad u i (Ok x); ETeardown (Ok tt); ESetup (Ok b)].
Proof.
  intros d1 e d2 H He. destruct d1 as [|e1 [|e2 [|e3 [|e4 d1]]]]; simpl in H;
    injection H as H0 H1; subst; simpl in He; try discriminate.
  by exists b, [].
Qed.

Section Instances.
Variable be : backend.
Variable cfg : config.

(** The restart counter moves by the number of [FAILURE_UNKNOWN] results. *)
Lemma Bal_restarts (us : list string) :
  hooks_return be -> restart_on_fail cfg = true ->
  Bal Z.of_nat (fun e => if is_unknown_load e then 1 else 0) restarts_follow
    (try_except (do ok <- call_setup be; if ok then process_urls be cfg us else ret tt)
       log_exception).
Proof.
  intros [Hs Ht] Hr. apply Bal_load_pages_body.
  - apply restarts_follow_nil.
  - apply restarts_follow_app.
  - intros r. split; [done|by apply restarts_follow_single].
  - intros u r. split; [done|by apply restarts_follow_single].
  - split; [done|by apply restarts_follow_single].
  - intros u i. split; [done|by apply restarts_follow_single].
  - intros u i x Hx. unfold is_success in Hx.
    assert (Hu : is_unknown_load (ELoad u i (Ok x)) = false)
      by (simpl; destruct (LoadResult.status_ x); done).
    rewrite Hu. split; [done|by apply restarts_follow_single].
  - intros u i x s r s' Hx H. rewrite Hr, andb_true_r in H.
    destruct (LoadResult.status_eqb (LoadResult.status_ x) LoadResult.FAILURE_UNKNOWN) eqn:Hu.
    + unfold when, restart, bind, call_teardown, call_setup, incr_restarts in H.
      rewrite Ht in H. destruct (Hs (trace s ++ [ETeardown (Ok tt)])) as [b Hb].
      simpl in H. rewrite Hb in H. injection H as <- <-.
      exists [ETeardown (Ok tt); ESetup (Ok b)]. simpl. rewrite Hu, <- app_assoc.
      split_and!; [done|lia|apply restarts_follow_chunk].
    + injection H as <- <-. exists []. simpl. rewrite Hu, app_nil_r.
      split_and!; [done|lia|apply restarts_follow_single; simpl; done].
Qed.

(** Outside restarts, the body calls no teardown. *)
Lemma Bal_teardowns (us : list string) :
  Bal (fun _ => 0)
    (fun e => (if is_teardown e then 1 else 0)
              - (if restart_on_fail cfg && is_unknown_load e then 1 else 0))
    (fun _ => True)
    (try_except (do ok <- call_setup be; if ok then process_urls be cfg us else ret tt)
       log_exception).
Proof.
  apply Bal_load_pages_body; try done.
  - intros r. simpl. by rewrite andb_false_r.
  - intros u r. simpl. by rewrite andb_false_r.
  - simpl. by rewrite andb_false_r.
  - intros u i. simpl. by rewrite andb_false_r.
  - intros u i x Hx. unfold is_success in Hx. simpl.
    destruct (LoadResult.status_ x); try done; by rewrite andb_false_r.
  - intros u i x s r s' Hx H.
    destruct (LoadResult.status_eqb (LoadResult.status_ x) LoadResult.FAILURE_UNKNOWN
              && restart_on_fail cfg) eqn:Hu.
    + unfold when, restart, bind, call_teardown, call_setup, incr_restarts in H.
      simpl. rewrite andb_comm in Hu. rewrite Hu.
      destruct (teardown_hook be (trace s)) as [[]|] eqn:Ht; simpl in H.
      * destruct (setup_hook be (trace s ++ [ETeardown (Ok ())])) eqn:Hs;
          injection H as <- <-; eexists; simpl; rewrite <- app_assoc;
          (split_and!; [reflexivity|simpl; rewrite ?andb_false_r; lia|done]).
      * injection H as <- <-. eexists; simpl. split_and!; [reflexivity|simpl; rewrite ?andb_false_r; lia|done].
    + injection H as <- <-. exists []. simpl. rewrite andb_comm in Hu. rewrite Hu, app_nil_r.
      split_and!; [done|simpl; lia|done].
Qed.

End Instances.

Lemma sumZ_ext (w1 w2 : event -> Z) (d : list event) :
  (forall e, w1 e = w2 e) -> sumZ w1 d = sumZ w2 d.
Proof. intros Hw. induction d as [|e d IH]; simpl; [done|]. by rewrite Hw, IH. Qed.

Lemma sumZ_count (f : event -> bool) (d : list event) :
  sumZ (fun e => if f e then 1 else 0) d = Z.of_nat (count f d).
Proof.
  unfold count. induction d as [|e d IH]; simpl; [done|].
  rewrite IH. destruct (f e); simpl; lia.
Qed.

Lemma count_teardowns (b : bool) (d : list event) :
  sumZ (fun e => (if is_teardown e then 1 else 0) - (if b && is_unknown_load e then 1 else 0)) d = 0 ->
  count is_teardown d = (if b then count is_unknown_load d else 0%nat).
Proof.
  destruct b.
  - cbn [andb]. rewrite sumZ_indicator. lia.
  - rewrite (sumZ_ext _ (fun e => if is_teardown e then 1 else 0)), sumZ_count; [lia|].
    intros e. simpl. lia.
Qed.

Lemma load_pages_teardowns (be : backend) (cfg : config) (us : list string) (s s' : loader) r :
  load_pages be cfg us s = (r, s') ->
  exists d r2, trace s' = trace s ++ d ++ [ETeardown r2] /\
    count is_teardown d = (if restart_on_fail cfg then count is_unknown_load d else 0%nat).
Proof.
  intros H. apply load_pages_final in H as (rb & s2 & Hb & -> & _).
  apply (Bal_teardowns be cfg us) in Hb as (d & Ht & Hw & _).
  exists d, (teardown_hook be (trace s2)). simpl. rewrite Ht, app_assoc.
  split; [done|]. apply count_teardowns. lia.
Qed.

Lemma load_pages_restarts (be : backend) (cfg : config) (us : list string) (s s' : loader) r :
  hooks_return be -> restart_on_fail cfg = true ->
  load_pages be cfg us s = (r, s') ->
  exists d r2, trace s' = trace s ++ d ++ [ETeardown r2] /\
    num_restarts s' = (num_restarts s + count is_unknown_load d)%nat /\
    restarts_follow d /\ count is_teardown d = count is_unknown_load d.
Proof.
  intros Hh Hr H. pose proof H as H'.
  apply load_pages_teardowns in H' as (d' & r2' & Ht' & Hc').
  apply load_pages_final in H as (rb & s2 & Hb & -> & _).
  pose proof Hb as Hb'.
  apply (Bal_restarts be cfg us Hh Hr) in Hb as (d & Ht & Hn & Hp).
  rewrite sumZ_count in Hn. simpl in Ht' |- *. rewrite Ht, app_assoc in Ht'.
  apply app_inj_tail in Ht' as [Hd _]. apply app_inv_head in Hd. subst d'.
  rewrite Hr in Hc'.
  exists d, (teardown_hook be (trace s2)). rewrite Ht, app_assoc. split_and!; try done. lia.
Qed.

Lemma load_pages_setup_false (be : backend) (cfg : config) (us : list string) (s : loader) :
  setup_hook be (trace s) = Ok false ->
  load_pages be cfg us s =
  (teardown_hook be (trace s ++ [ESetup (Ok false)]),
   emit (ETeardown (teardown_hook be (trace s ++ [ESetup (Ok false)]))) (emit (ESetup (Ok false)) s)).
Proof.
  intros Hs. unfold load_pages, try_finally, try_except, bind, call_setup, call_teardown.
  rewrite Hs. simpl. by destruct (teardown_hook be _) as [[]|].
Qed.

Lemma process_url_pages (be : backend) (cfg : config) (u0 : string) (s s' : loader) r :
  process_url be cfg u0 s = (r, s') ->
  (r = Ok tt /\ exists p, page_results s' = <[check_url u0 := p]> (page_results s)) \/
  (r = Raise /\ check_protocol_availability cfg = true /\
   urlsplit_raises (check_url u0) = true /\ s' = emit (EProbe (check_url u0) Raise) s).
Proof.
  intros H. destruct r as [[]|].
  - left. split; [done|].
    destruct (goes_to_trials be cfg (check_url u0) s) eqn:Hg.
    + apply process_url_trials in H as (_ & d & l & _ & _ & _ & _ & Hp); [|done].
      by eexists.
    + unfold goes_to_trials in Hg.
      destruct (check_protocol_availability cfg) eqn:Hc; [|discriminate].
      destruct (urlsplit_raises (check_url u0)) eqn:Hu.
      * rewrite process_url_probe_raises in H by done. discriminate.
      * simpl in Hg. rewrite process_url_not_accessible in H by done.
        injection H as <-. by eexists.
  - right. split; [done|]. by apply process_url_raise in H.
Qed.

Lemma process_urls_outcome (be : backend) (cfg : config) (us : list string) (s s' : loader) r :
  process_urls be cfg us s = (r, s') ->
  (forall k, is_Some (page_results s !! k) -> is_Some (page_results s' !! k)) /\
  ((r = Ok tt /\ forall u0, u0 ∈ us -> is_Some (page_results s' !! check_url u0)) \/
   (exists pre u0 post s1, us = pre ++ u0 :: post /\ r = Raise /\
      check_protocol_availability cfg = true /\ urlsplit_raises (check_url u0) = true /\
      (forall v, v ∈ pre -> is_Some (page_results s' !! check_url v)) /\
      s' = emit (EProbe (check_url u0) Raise) s1)).
Proof.
  induction us as [|u us IH] in s, s', r |- *; simpl.
  - intros [= <- <-]. split; [done|]. left. split; [done|]. intros u0 Hu. inversion Hu.
  - unfold bind at 1. destruct (process_url be cfg u s) as [r1 s1] eqn:H1.
    apply process_url_pages in H1 as [[-> [p Hp]]|(-> & Hc & Hu & ->)].
    + intros H. apply IH in H as [Hm [[-> Hall]|(pre & u0 & post & s2 & -> & -> & Hrest)]].
      * split.
        { intros k Hk. apply Hm. rewrite Hp. destruct (decide (k = check_url u)) as [->|Hne].
          - by rewrite lookup_insert_eq.
          - by rewrite lookup_insert_ne. }
        left. split; [done|]. intros u0 Hu0. apply elem_of_cons in Hu0 as [->|Hu0]; [|by apply Hall].
        apply Hm. rewrite Hp, lookup_insert_eq. by eexists.
      * split.
        { intros k Hk. apply Hm. rewrite Hp. destruct (decide (k = check_url u)) as [->|Hne].
          - by rewrite lookup_insert_eq.
          - by rewrite lookup_insert_ne. }
        right. exists (u :: pre), u0, post, s2. destruct Hrest as (Hc & Hu & Hpre & Hs).
        split_and!; try done. intros v Hv. apply elem_of_cons in Hv as [->|Hv]; [|by apply Hpre].
        apply Hm. rewrite Hp, lookup_insert_eq. by eexists.
    + intros [= <- <-]. split; [done|]. right. exists [], u, us, s. split_and!; try done.
      intros v Hv. inversion Hv.
Qed.

(** [load_pages] after a setup that returns [True]: every URL gets a page
    summary, or the protocol check of some URL raises; then the URLs before
    it have a summary and the run logs the error and tears down. *)
Lemma load_pages_outcome (be : backend) (cfg : config) (us : list string) (s s' : loader) r :
  setup_hook be (trace s) = Ok true ->
  load_pages be cfg us s = (r, s') ->
  (forall u0, u0 ∈ us -> is_Some (page_results s' !! check_url u0)) \/
  (exists pre u0 post t r2, us = pre ++ u0 :: post /\
     check_protocol_availability cfg = true /\ urlsplit_raises (check_url u0) = true /\
     (forall v, v ∈ pre -> is_Some (page_results s' !! check_url v)) /\
     trace s' = t ++ [EProbe (check_url u0) Raise; ELogException; ETeardown r2]).
Proof.
  intros Hs H. apply load_pages_final in H as (rb & s2 & Hb & -> & _).
  unfold try_except, bind at 1, call_setup in Hb. rewrite Hs in Hb.
  destruct (process_urls be cfg us (emit (ESetup (Ok true)) s)) as [r1 s1] eqn:Hp.
  apply process_urls_outcome in Hp as [_ [[-> Hall]|(pre & u0 & post & s3 & -> & -> & Hc & Hu & Hpre & ->)]].
  - injection Hb as <- <-. left. exact Hall.
  - unfold log_exception in Hb. injection Hb as <- <-. right.
    exists pre, u0, post, (trace s3), (teardown_hook be (trace (emit ELogException
      (emit (EProbe (check_url u0) Raise) s3)))).
    split_and!; try done. simpl. by rewrite <- !app_assoc.
Qed.

Lemma process_url_results (be : backend) (cfg : config) (u0 : string) (s s' : loader) r :
  process_url be cfg u0 s = (r, s') ->
  (forall k, k <> check_url u0 -> load_results s' !! k = load_results s !! k) /\
  (length (default [] (load_results s' !! check_url u0))
     <= length (default [] (load_results s !! check_url u0)) + num_trials cfg)%nat /\
  (summaries_ok s -> summaries_ok s').
Proof.
  intros H.
  destruct (goes_to_trials be cfg (check_url u0) s) eqn:Hg.
  - apply process_url_trials in H as (_ & d & l & _ & Hl & Hh & Ho & Hp); [|done].
    split_and!; [done|rewrite Hh, length_app; lia|].
    intros Hok k p. rewrite Hp. destruct (decide (k = check_url u0)) as [->|Hne].
    + rewrite lookup_insert_eq. intros [= <-]. by right.
    + rewrite lookup_insert_ne by congruence. rewrite (Ho k Hne). apply Hok.
  - unfold goes_to_trials in Hg.
    destruct (check_protocol_availability cfg) eqn:Hc; [|discriminate].
    destruct (urlsplit_raises (check_url u0)) eqn:Hu.
    + rewrite process_url_probe_raises in H by done. injection H as _ <-.
      simpl. split_and!; [done|lia|]. done.
    + simpl in Hg. rewrite process_url_not_accessible in H by done.
      injection H as _ <-. simpl. split_and!; [done|lia|].
      intros Hok k p. cbn [page_results load_results]. destruct (decide (k = check_url u0)) as [->|Hne].
      * rewrite lookup_insert_eq. intros [= <-]. by left.
      * rewrite lookup_insert_ne by congruence. apply Hok.
Qed.

Lemma process_urls_results (be : backend) (cfg : config) (us : list string) (s s' : loader) r :
  process_urls be cfg us s = (r, s') ->
  (forall k, length (default [] (load_results s' !! k))
     <= length (default [] (load_results s !! k)) + num_trials cfg * count_key k us)%nat /\
  (summaries_ok s -> summaries_ok s').
Proof.
  induction us as [|u us IH] in s, s', r |- *; simpl.
  - intros [= <- <-]. split; [intros k; lia|done].
  - unfold bind at 1. destruct (process_url be cfg u s) as [r1 s1] eqn:H1.
    apply process_url_results in H1 as (Ho & Hl & Hs).
    assert (Hstep : forall k, (length (default [] (load_results s1 !! k))
       <= length (default [] (load_results s !! k))
          + (if String.eqb (check_url u) k then num_trials cfg else 0))%nat).
    { intros k. destruct (String.eqb_spec (check_url u) k) as [<-|Hne]; [done|].
      rewrite Ho by congruence. lia. }
    destruct r1 as [[]|].
    + intros H. apply IH in H as [Hb Hs']. split; [|tauto].
      intros k. specialize (Hb k). specialize (Hstep k). unfold count_key. simpl.
      destruct (String.eqb (check_url u) k); simpl; fold (count_key k us) in *; lia.
    + intros [= <- <-]. split; [|done].
      intros k. specialize (Hstep k). unfold count_key. simpl.
      destruct (String.eqb (check_url u) k); simpl; lia.
Qed.

Lemma load_pages_body_cases (be : backend) (cfg : config) (us : list string) (s s2 : loader) rb :
  try_except (do ok <- call_setup be; if ok then process_urls be cfg us else ret tt)
    log_exception s = (rb, s2) ->
  (load_results s2 = load_results s /\ page_results s2 = page_results s) \/
  exists r1 s1, process_urls be cfg us (emit (ESetup (Ok true)) s) = (r1, s1) /\
    load_results s2 = load_results s1 /\ page_results s2 = page_results s1.
Proof.
  unfold try_except, bind at 1, call_setup, log_exception.
  destruct (setup_hook be (trace s)) as [[]|].
  - destruct (process_urls be cfg us _) as [[[]|] s1] eqn:Hp;
      intros [= <- <-]; right; eauto.
  - intros [= <- <-]. by left.
  - intros [= <- <-]. by left.
Qed.

Lemma load_pages_results (be : backend) (cfg : config) (us : list string) (s s' : loader) r :
  load_pages be cfg us s = (r, s') ->
  (forall k, length (default [] (load_results s' !! k))
     <= length (default [] (load_results s !! k)) + num_trials cfg * count_key k us)%nat /\
  (summaries_ok s -> summaries_ok s').
Proof.
  intros H. apply load_pages_final in H as (rb & s2 & Hb & -> & _).
  apply load_pages_body_cases in Hb as [[Hl Hp]|(r1 & s1 & Hp & Hl & Hpp)];
    unfold summaries_ok; simpl.
  - rewrite Hl, Hp. split; [intros k; lia|done].
  - apply process_urls_results in Hp as [Hb Hs]. rewrite Hl, Hpp. split; [exact Hb|].
    intros Hok. apply Hs. exact Hok.
Qed.

Lemma length_filter_le {A} (f : A -> bool) (l : list A) :
  (length (List.filter f l) <= length l)%nat.
Proof. induction l as [|x l IH]; simpl; [lia|]. destruct (f x); simpl; lia. Qed.

Lemma existsb_false_Forall {A} (f : A -> bool) (l : list A) :
  existsb f l = false <-> Forall (fun x => f x = false) l.
Proof.
  induction l as [|x l IH]; simpl; [split; auto|].
  rewrite orb_false_iff, Forall_cons, IH. tauto.
Qed.

Lemma existsb_true_Exists {A} (f : A -> bool) (l : list A) :
  existsb f l = true <-> Exists (fun x => f x = true) l.
Proof.
  induction l as [|x l IH]; simpl.
  - split; [discriminate|intros H; inversion H].
  - rewrite orb_true_iff, Exists_cons, IH. tauto.
Qed.

Lemma str_get_map_option (f : ascii -> ascii) (u : string) (n : nat) :
  String.get n (str_map f u) = option_map f (String.get n u).
Proof.
  revert n; induction u as [|d u IH]; intros n; [done|].
  destruct n as [|n]; simpl; [done|apply IH].
Qed.

Lemma PageResult_init_not_na (u : string) (rs : list LoadResult.t) :
  PageResult.status_ (PageResult_init u None rs) <> PageResult.FAILURE_NOT_ACCESSIBLE.
Proof.
  rewrite PageResult_init_results. destruct rs; simpl; [discriminate|].
  destruct (_ && _); [discriminate|]. destruct (_ || _); discriminate.
Qed.

Lemma restarts_tried_nil : restarts_tried [].
Proof.
  split.
  - intros d1 e d2 H. destruct d1; discriminate.
  - intros d1 rs d2 H. destruct d1; discriminate.
Qed.

Lemma restarts_tried_single (e : event) :
  is_unknown_load e = false -> is_setup e = false -> restarts_tried [e].
Proof.
  intros Hu Hs. split.
  - intros d1 e' d2 H He. destruct d1 as [|? [|]]; simpl in H; try discriminate.
    injection H as -> _. congruence.
  - intros d1 rs d2 H. destruct d1 as [|? [|]]; simpl in H; try discriminate.
    injection H as -> _. discriminate.
Qed.

Lemma restarts_tried_app (d1 d2 : list event) :
  restarts_tried d1 -> restarts_tried d2 -> restarts_tried (d1 ++ d2).
Proof.
  intros [H1 S1] [H2 S2]. split.
  - intros a e b Heq He.
    apply List.app_eq_app in Heq as [l [[-> Hl]|[-> Hl]]].
    + destruct l as [|e' l]; simpl in Hl.
      * rewrite app_nil_r in H1, S1. subst d2. apply (H2 [] e b); done.
      * injection Hl as He' Hb. subst e' b.
        destruct (H1 a e l eq_refl He) as (rt & d3 & -> & Hrt).
        exists rt, (d3 ++ d2). split; [done|].
        intros Hok. destruct (Hrt Hok) as (rs & d4 & ->). by exists rs, (d4 ++ d2).
    + apply (H2 l e b Hl He).
  - intros a rs b Heq.
    apply List.app_eq_app in Heq as [l [[-> Hl]|[-> Hl]]].
    + destruct l as [|e' l]; simpl in Hl.
      * subst d2. destruct (S2 [] rs b eq_refl) as (d0 & e & Hd0 & _).
        destruct d0 as [|? [|]]; discriminate.
      * injection Hl as He' Hb. subst e' b. apply (S1 a rs l eq_refl).
    + destruct (S2 l rs b Hl) as (d0 & e & -> & He).
      exists (d1 ++ d0), e. by rewrite <- app_assoc.
Qed.

Lemma restarts_tried_chunk_raise (u : string) (i : nat) (x : LoadResult.t) :
  restarts_tried [ELoad u i (Ok x); ETeardown Raise].
Proof.
  split.
  - intros d1 e d2 H He. destruct d1 as [|e1 [|e2 [|e3 d1]]]; simpl in H;
      injection H as H0 H1; subst; simpl in He; try discriminate.
    exists Raise, []. split; [done|discriminate].
  - intros d1 rs d2 H. destruct d1 as [|e1 [|e2 [|e3 d1]]]; simpl in H;
      injection H as H0 H1; subst; discriminate.
Qed.

Lemma restarts_tried_chunk (u : string) (i : nat) (x : LoadResult.t) (rs : res bool) :
  is_unknown_load (ELoad u i (Ok x)) = true ->
  restarts_tried [ELoad u i (Ok x); ETeardown (Ok tt); ESetup rs].
Proof.
  intros Hx. split.
  - intros d1 e d2 H He. destruct d1 as [|e1 [|e2 [|e3 [|e4 d1]]]]; simpl in H;
      injection H as H0 H1; subst; simpl in He; try discriminate.
    exists (Ok tt), [ESetup rs]. split; [done|]. intros _. by exists rs, [].
  - intros d1 rs' d2 H. destruct d1 as [|e1 [|e2 [|e3 [|e4 d1]]]]; simpl in H;
      injection H as H0 H1; subst; try discriminate.
    by exists [], (ELoad u i (Ok x)).
Qed.

(** With [restart_on_fail], the restart counter moves by the setups of
    restarts that returned, and the restarts keep their shape. *)
Lemma Bal_ok_setups (be : backend) (cfg : config) (us : list string) :
  restart_on_fail cfg = true ->
  Bal Z.of_nat (fun e => if is_ok_setup e then 1 else 0) restarts_tried
    (process_urls be cfg us).
Proof.
  intros Hr. apply Bal_process_urls.
  - apply restarts_tried_nil.
  - apply restarts_tried_app.
  - intros u r. split; [done|by apply restarts_tried_single].
  - split; [done|by apply restarts_tried_single].
  - intros u i. split; [done|by apply restarts_tried_single].
  - intros u i x Hx. unfold is_success in Hx.
    split; [done|apply restarts_tried_single; [|done]].
    simpl. destruct (LoadResult.status_ x); done.
  - intros u i x s r s' Hx H. rewrite Hr, andb_true_r in H.
    destruct (LoadResult.status_eqb (LoadResult.status_ x) LoadResult.FAILURE_UNKNOWN) eqn:Hu.
    + unfold when, restart, bind, call_teardown, call_setup, incr_restarts in H.
      destruct (teardown_hook be (trace s)) as [[]|] eqn:Ht; simpl in H.
      * destruct (setup_hook be (trace s ++ [ETeardown (Ok tt)])) as [b|] eqn:Hs;
          injection H as <- <-.
        -- exists [ETeardown (Ok tt); ESetup (Ok b)]. simpl. rewrite <- app_assoc.
           split_and!; [done|lia|apply restarts_tried_chunk; exact Hu].
        -- exists [ETeardown (Ok tt); ESetup Raise]. simpl. rewrite <- app_assoc.
           split_and!; [done|lia|apply restarts_tried_chunk; exact Hu].
      * injection H as <- <-. exists [ETeardown Raise]. simpl.
        split_and!; [done|lia|apply restarts_tried_chunk_raise].
    + injection H as <- <-. exists []. rewrite app_nil_r.
      split_and!; [done|simpl; lia|apply restarts_tried_single; [exact Hu|done]].
Qed.

(** The events of a run with [restart_on_fail]: the first setup, then
    events whose setups that returned count the restarts. *)
Lemma load_pages_ok_setups (be : backend) (cfg : config) (us : list string)
    (s s' : loader) (r : res unit) :
  restart_on_fail cfg = true ->
  load_pages be cfg us s = (r, s') ->
  exists r0 d r2, trace s' = trace s ++ ESetup r0 :: d ++ [ETeardown r2] /\
    restarts_tried d /\ num_restarts s' = (num_restarts s + count is_ok_setup d)%nat.
Proof.
  intros Hr H. apply load_pages_final in H as (rb & s2 & Hb & -> & _).
  assert (Hd : exists r0 d, trace s2 = trace s ++ ESetup r0 :: d /\ restarts_tried d /\
            num_restarts s2 = (num_restarts s + count is_ok_setup d)%nat).
  { unfold try_except, bind at 1, call_setup in Hb.
    destruct (setup_hook be (trace s)) as [[]|] eqn:Hs.
    - destruct (process_urls be cfg us (emit (ESetup (Ok true)) s)) as [[[]|] s1] eqn:Hp;
        apply (Bal_ok_setups be cfg us Hr) in Hp as (d & Ht & Hn & HP);
        rewrite sumZ_count in Hn; simpl in Ht, Hn.
      + injection Hb as <- <-. exists (Ok true), d. rewrite Ht, <- app_assoc.
        split_and!; [done|done|lia].
      + unfold log_exception in Hb. injection Hb as <- <-.
        exists (Ok true), (d ++ [ELogException]). simpl. rewrite Ht, <- !app_assoc.
        split_and!; [done|apply restarts_tried_app; [done|by apply restarts_tried_single]|].
        rewrite count_app. change (count is_ok_setup [ELogException]) with 0%nat. lia.
    - injection Hb as <- <-. exists (Ok false), []. simpl.
      split_and!; [done|apply restarts_tried_nil|unfold count; simpl; lia].
    - unfold log_exception in Hb. injection Hb as <- <-.
      exists Raise, [ELogException]. simpl. rewrite <- app_assoc.
      split_and!; [done|by apply restarts_tried_single|unfold count; simpl; lia]. }
  destruct Hd as (r0 & d & Ht & HP & Hn).
  exists r0, d, (teardown_hook be (trace s2)). simpl.
  rewrite Ht, <- app_assoc. split_and!; [done|done|exact Hn].
Qed.

(** * The claims *)

(** C1 (code bug). With protocol checking on, a URL that makes [urlparse]
    raise, such as [http://[::1], stops the whole run: the error of the
    [urlparse] call, which [_check_protocol_available] makes before its
    [try], reaches the outer handler of [load_pages], which logs it and
    tears down. Neither that URL nor the next one gets a summary. A probe
    that fails inside that [try] instead returns [False]: the URL is
    recorded as not accessible and the next URL is processed. *)
Lemma C1_code_bug :
  let cfg := ex_config 1 0 false true in
  let run := load_pages (ex_backend true) cfg ["http://[::1"; "b.com"] fresh_loader in
  let run2 := load_pages (ex_backend false) cfg ["http://a.com"; "b.com"] fresh_loader in
  fst run = Ok tt /\ page_results (snd run) !! "http://[::1" = None /\
  page_results (snd run) !! check_url "b.com" = None /\
  trace (snd run) = [ESetup (Ok true); EProbe "http://[::1" Raise; ELogException;
                     ETeardown (Ok tt)] /\
  option_map PageResult.status_ (page_results (snd run2) !! "http://a.com")
    = Some PageResult.FAILURE_NOT_ACCESSIBLE /\
  option_map PageResult.status_ (page_results (snd run2) !! check_url "b.com")
    = Some PageResult.FAILURE_NOT_ACCESSIBLE.
Proof. vm_compute. split_and!; reflexivity. Qed.

(** C2 (amended). [load_pages] does not check for an empty list: on [[]]
    it calls [setup] once, logs the error if [setup] raised, calls
    [teardown] once, leaves the summaries as they were, and raises only if
    [teardown] raised. *)
Theorem C2_empty_urls (be : backend) (cfg : config) (s s' : loader) (r : res unit) :
  load_pages be cfg [] s = (r, s') ->
  exists r1 r2,
    trace s' = trace s ++ [ESetup r1] ++
      (match r1 with Raise => [ELogException] | Ok _ => [] end) ++ [ETeardown r2] /\
    page_results s' = page_results s /\ load_results s' = load_results s /\
    r = match r2 with Ok _ => Ok tt | Raise => Raise end.
Proof.
  unfold load_pages, try_finally, try_except, bind, call_setup, call_teardown, log_exception.
  intros H. destruct (setup_hook be (trace s)) as [b|];
    [exists (Ok b); destruct b|exists Raise]; cbn [process_urls ret] in H;
    destruct (teardown_hook be _) as [[]|]; injection H as <- <-; eexists; simpl;
    rewrite <- ?app_assoc; split_and!; reflexivity.
Qed.

(** On an empty list the run calls [setup] and [teardown] and reports no
    error. *)
Lemma C2_counterexample :
  load_pages (ex_backend true) (ex_config 1 0 false false) [] fresh_loader
  = (Ok tt, Build_loader [ESetup (Ok true); ETeardown (Ok tt)] [] ∅ ∅ 0).
Proof. reflexivity. Qed.

Lemma C2_witness :
  let run := load_pages (ex_backend true) (ex_config 1 0 false false) [] fresh_loader in
  exists r1 r2,
    trace (snd run) = trace fresh_loader ++ [ESetup r1] ++
      (match r1 with Raise => [ELogException] | Ok _ => [] end) ++ [ETeardown r2] /\
    page_results (snd run) = page_results fresh_loader /\
    load_results (snd run) = load_results fresh_loader /\
    fst run = match r2 with Ok _ => Ok tt | Raise => Raise end.
Proof.
  apply (C2_empty_urls (ex_backend true) (ex_config 1 0 false false) fresh_loader).
  reflexivity.
Defined.

(** C3 (amended). The status of [PageResult(url, load_results=rs)]: an
    empty [rs] gives [FAILURE_UNSET]; a non-empty one of failures only
    gives [FAILURE_UNKNOWN], of successes only [SUCCESS], and a mix
    [PARTIAL_SUCCESS]. So the status is [SUCCESS] iff [rs] is non-empty
    and every result in it is a success. *)
Theorem C3_status_derivation (u : string) (rs : list LoadResult.t) :
  let st := PageResult.status_ (PageResult_init u None rs) in
  (rs = [] -> st = PageResult.FAILURE_UNSET) /\
  (rs <> [] -> Forall (fun x => is_success x = false) rs -> st = PageResult.FAILURE_UNKNOWN) /\
  (rs <> [] -> Forall (fun x => is_success x = true) rs -> st = PageResult.SUCCESS) /\
  (Exists (fun x => is_success x = true) rs -> Exists (fun x => is_success x = false) rs ->
     st = PageResult.PARTIAL_SUCCESS) /\
  (st = PageResult.SUCCESS <-> rs <> [] /\ Forall (fun x => is_success x = true) rs).
Proof.
  intros st. subst st. rewrite PageResult_init_results.
  destruct rs as [|x rs'].
  - simpl. split_and!; try done.
    + intros H. inversion H.
    + split; [discriminate|intros [[] _]; done].
  - set (l := x :: rs').
    assert (HA : Forall (fun y => is_success y = true) l
                 <-> existsb (fun y => negb (is_success y)) l = false).
    { rewrite existsb_false_Forall. apply Forall_iff. intros y. symmetry. apply negb_false_iff. }
    assert (HA' : Exists (fun y => is_success y = false) l
                  <-> existsb (fun y => negb (is_success y)) l = true).
    { rewrite existsb_true_Exists. split; intros H; (eapply Exists_impl; [exact H|]); intros y; by rewrite negb_true_iff. }
    assert (HB : Forall (fun y => is_success y = false) l <-> existsb is_success l = false)
      by (symmetry; apply existsb_false_Forall).
    assert (HB' : Exists (fun y => is_success y = true) l <-> existsb is_success l = true)
      by (symmetry; apply existsb_true_Exists).
    rewrite HA, HA', HB, HB'. cbn -[existsb].
    assert (Hne : l <> []) by discriminate.
    assert (Hx : existsb (fun y => negb (is_success y)) l || existsb is_success l = true)
      by (subst l; simpl; destruct (is_success x); simpl; rewrite ?orb_true_r; done).
    destruct (existsb (fun y => negb (is_success y)) l), (existsb is_success l);
      simpl in Hx; try discriminate Hx; simpl; split_and!; try tauto; try discriminate; try (intros; discriminate);
      try (intros _ H; discriminate H); try (split; [discriminate|intros [_ ?]; discriminate]).
Qed.

(** An empty result list yields [FAILURE_UNSET], though all (none) of its
    results are successes and all are failures. *)
Lemma C3_counterexample :
  PageResult.status_ (PageResult_init "http://a.com" None []) = PageResult.FAILURE_UNSET /\
  Forall (fun x => is_success x = true) [] /\ Forall (fun x => is_success x = false) [].
Proof. split_and!; [reflexivity|constructor..]. Qed.

(** C4 (amended). After a run on a fresh [Loader], every page summary
    for a key [k] has at most [num_trials] times per submitted URL that
    [_check_url] maps to [k]. A summary is [FAILURE_NOT_ACCESSIBLE] with
    no times, or its times count the [SUCCESS] results recorded for [k]
    whose time is truthy (non-zero). *)
Theorem C4_times_count (be : backend) (cfg : config) (us : list string)
    (s' : loader) (r : res unit) :
  load_pages be cfg us fresh_loader = (r, s') ->
  forall k p, page_results s' !! k = Some p ->
  (length (PageResult.times p) <= num_trials cfg * count_key k us)%nat /\
  ((PageResult.status_ p = PageResult.FAILURE_NOT_ACCESSIBLE /\ PageResult.times p = []) \/
   length (PageResult.times p) =
   length (List.filter (fun x => is_success x && truthy (LoadResult.time x))
             (default [] (load_results s' !! k)))).
Proof.
  intros H k p Hp. apply load_pages_results in H as [Hb Hs].
  assert (Hok : summaries_ok s') by (apply Hs; intros k' p' Hk'; discriminate Hk').
  specialize (Hb k). unfold fresh_loader in Hb. cbn [load_results] in Hb.
  rewrite lookup_empty in Hb. cbn [default length] in Hb.
  destruct (Hok k p Hp) as [[Hst Ht]| ->].
  - rewrite Ht. simpl. split; [lia|by left].
  - rewrite PageResult_init_results. cbn [PageResult.times PageResult.status_]. rewrite length_success_times.
    split; [|by right].
    pose proof (length_filter_le (fun x => is_success x && truthy (LoadResult.time x))
                  (default [] (load_results s' !! k))). lia.
Qed.

(** A ChromeLoader records one success but no time; a URL submitted twice
    gets two times with [num_trials = 1]. *)
Lemma C4_counterexample :
  let run := load_pages ex_chrome (ex_config 1 0 false false) ["a.com"] fresh_loader in
  let run2 := load_pages (ex_backend true) (ex_config 1 0 false false) ["a.com"; "a.com"]
                fresh_loader in
  option_map (fun p => (PageResult.status_ p, PageResult.times p))
    (page_results (snd run) !! "http://a.com") = Some (PageResult.SUCCESS, []) /\
  option_map (fun rs => List.map LoadResult.status_ rs)
    (load_results (snd run) !! "http://a.com") = Some [LoadResult.SUCCESS] /\
  option_map PageResult.times (page_results (snd run2) !! "http://a.com") = Some [5; 5].
Proof. vm_compute. split_and!; reflexivity. Qed.

Lemma C4_witness :
  let us := ["a.com"; "http://b.com"; "a.com"] in
  let run := load_pages (flaky_backend LoadResult.FAILURE_TIMEOUT 1) (ex_config 2 0 false false)
               us fresh_loader in
  exists p, page_results (snd run) !! "http://a.com" = Some p /\
  PageResult.times p = [5; 5; 5] /\
  (length (PageResult.times p) <= num_trials (ex_config 2 0 false false)
                                    * count_key "http://a.com" us)%nat /\
  ((PageResult.status_ p = PageResult.FAILURE_NOT_ACCESSIBLE /\ PageResult.times p = []) \/
   length (PageResult.times p) =
   length (List.filter (fun x => is_success x && truthy (LoadResult.time x))
             (default [] (load_results (snd run) !! "http://a.com")))).
Proof.
  intros us run.
  let v := eval vm_compute in (page_results (snd run) !! "http://a.com") in
  match v with Some ?p => exists p end.
  split; [vm_compute; reflexivity|]. split; [reflexivity|].
  apply (C4_times_count (flaky_backend LoadResult.FAILURE_TIMEOUT 1)
    (ex_config 2 0 false false) us (snd run) (fst run)); vm_compute; reflexivity.
Defined.

(** C5 (amended). One trial calls [_load_page] at most [1 + retries]
    times and always returns. When no call raises, the calls are failures
    and then one last result, which is a success or the result of the
    last allowed try, and exactly that result is recorded. When a call
    raises, the trial stops, the error is logged, and at most one result
    is recorded. *)
Theorem C5_trial_attempts (be : backend) (cfg : config) (u : string) (i : nat)
    (s s' : loader) (r : res unit) :
  trial be cfg u i s = (r, s') ->
  r = Ok tt /\
  exists d l, trace s' = trace s ++ d /\ frame u s s' l /\
    (length (loads_of d) <= S (retries_per_trial cfg))%nat /\
    (forallb no_raise d = true ->
       exists rs x, loads_of d = map Ok (rs ++ [x]) /\
         Forall (fun y => is_success y = false) rs /\
         (is_success x = true \/ length rs = retries_per_trial cfg) /\ l = [x]) /\
    (forallb no_raise d = false ->
       (length l <= 1)%nat /\ last d = Some ELogException).
Proof.
  unfold trial, try_except.
  destruct (attempt_loop be cfg u i (S (retries_per_trial cfg)) 0 s) as [r1 s1] eqn:H.
  pose proof H as H'. apply attempt_loop_spec in H' as (d & l & Ht & Hf & Hl & Hn & Hr & Hs); [|lia].
  destruct r1 as [[]|].
  - intros [= <- <-]. split; [done|]. exists d, l. split_and!; try done.
    + intros Hd. apply Hs; [done|lia].
    + intros Hd. destruct Hr as [Hr _]. rewrite (Hr eq_refl) in Hd. discriminate.
  - unfold log_exception. intros [= <- <-]. split; [done|].
    assert (Hd : forallb no_raise d = false)
      by (destruct (forallb no_raise d); [destruct Hr as [_ Hc]; discriminate (Hc eq_refl)|done]).
    exists (d ++ [ELogException]), l. simpl. rewrite Ht, app_assoc.
    split; [done|]. split.
    { assert (Hf' : frame u s (emit ELogException s1) (l ++ []))
        by (eapply frame_trans; [exact Hf|apply frame_emit]).
      by rewrite app_nil_r in Hf'. }
    rewrite loads_of_app, no_raise_app, Hd, app_nil_r. simpl.
    split_and!; try done. intros _. split; [done|by rewrite last_snoc].
Qed.

(** Every call of [PhantomJSLoader._load_page] raises: the trial records
    no result. *)
Lemma C5_counterexample :
  trial (phantomjs_backend (fun _ _ => true)) (ex_config 1 2 false false) "http://a.com" 0
    fresh_loader
  = (Ok tt, Build_loader [ELoad "http://a.com" 0 Raise; ELogException] [] ∅ ∅ 0).
Proof. reflexivity. Qed.

(** Two failures, then a success, with two retries: one result is
    recorded, the success. *)
Lemma C5_witness :
  let be := flaky_backend LoadResult.FAILURE_TIMEOUT 2 in
  let cfg := ex_config 1 2 false false in
  let run := trial be cfg "http://a.com" 0 fresh_loader in
  load_results (snd run) !! "http://a.com" = Some [timed_success "http://a.com"] /\
  (fst run = Ok tt /\
   exists d l, trace (snd run) = trace fresh_loader ++ d /\ frame "http://a.com" fresh_loader (snd run) l /\
    (length (loads_of d) <= S (retries_per_trial cfg))%nat /\
    (forallb no_raise d = true ->
       exists rs x, loads_of d = map Ok (rs ++ [x]) /\
         Forall (fun y => is_success y = false) rs /\
         (is_success x = true \/ length rs = retries_per_trial cfg) /\ l = [x]) /\
    (forallb no_raise d = false ->
       (length l <= 1)%nat /\ last d = Some ELogException)).
Proof.
  intros be cfg run. split; [vm_compute; reflexivity|].
  apply (C5_trial_attempts be cfg "http://a.com" 0 fresh_loader (snd run) (fst run)).
  vm_compute. reflexivity.
Defined.

(** C6 (amended). With [restart_on_fail] set, the events of a run are
    its first setup, then events [d], then the final teardown. In [d]
    every [FAILURE_UNKNOWN] result is followed at once by a teardown and,
    when that teardown returned, by a setup; every setup in [d] follows
    such a result and a teardown that returned; and [d] holds one teardown
    per [FAILURE_UNKNOWN] result, so no other result restarts. The restart
    counter grows by the setups in [d] that returned: a restart whose
    teardown or setup raises is not counted. With hooks that return, it
    grows by the number of [FAILURE_UNKNOWN] results. *)
Theorem C6_restart_counter (be : backend) (cfg : config) (us : list string)
    (s s' : loader) (r : res unit) :
  restart_on_fail cfg = true ->
  load_pages be cfg us s = (r, s') ->
  exists r0 d r2, trace s' = trace s ++ ESetup r0 :: d ++ [ETeardown r2] /\
    restarts_tried d /\
    count is_teardown d = count is_unknown_load d /\
    num_restarts s' = (num_restarts s + count is_ok_setup d)%nat /\
    (hooks_return be -> num_restarts s' = (num_restarts s + count is_unknown_load d)%nat).
Proof.
  intros Hr H. pose proof H as H1. pose proof H as H2.
  apply load_pages_ok_setups in H as (r0 & d & r2 & Ht & HP & Hn); [|exact Hr].
  exists r0, d, r2. split_and!; [exact Ht|exact HP| |exact Hn|].
  - apply load_pages_teardowns in H1 as (d' & r2' & Ht' & Hc). rewrite Hr in Hc.
    rewrite Ht, app_comm_cons, app_assoc, app_assoc in Ht'.
    apply app_inj_tail in Ht' as [Hd _]. apply app_inv_head in Hd. subst d'.
    unfold count in Hc |- *. exact Hc.
  - intros Hh. apply (load_pages_restarts be cfg us s s' r Hh Hr) in H2
      as (d' & r2' & Ht' & Hn' & _).
    rewrite Ht, app_comm_cons, app_assoc, app_assoc in Ht'.
    apply app_inj_tail in Ht' as [Hd _]. apply app_inv_head in Hd. subst d'.
    rewrite Hn'. unfold count. reflexivity.
Qed.

(** One [FAILURE_UNKNOWN], then successes, with hooks that return: one
    restart. *)
Lemma C6_witness :
  let be := flaky_backend LoadResult.FAILURE_UNKNOWN 1 in
  let cfg := ex_config 2 1 true false in
  let run := load_pages be cfg ["a.com"] fresh_loader in
  num_restarts (snd run) = 1%nat /\
  exists r0 d r2, trace (snd run) = trace fresh_loader ++ ESetup r0 :: d ++ [ETeardown r2] /\
    restarts_tried d /\
    count is_teardown d = count is_unknown_load d /\
    num_restarts (snd run) = (num_restarts fresh_loader + count is_ok_setup d)%nat /\
    (hooks_return be ->
       num_restarts (snd run) = (num_restarts fresh_loader + count is_unknown_load d)%nat).
Proof.
  intros be cfg run. split; [vm_compute; reflexivity|].
  apply (C6_restart_counter be cfg ["a.com"] fresh_loader (snd run) (fst run)).
  - reflexivity.
  - vm_compute. reflexivity.
Defined.

(** A ChromeLoader whose teardown raises: the [FAILURE_UNKNOWN] result
    triggers a teardown, which raises; the restart counter stays at 0. *)
Lemma C6_counterexample :
  let be := chrome_backend false (fun _ => true) (fun _ => Raise)
              (fun _ => CapturerCalledProcessError) (fun _ _ => true) in
  let run := load_pages be (ex_config 1 0 true false) ["a.com"] fresh_loader in
  count is_unknown_load (trace (snd run)) = 1%nat /\
  count is_teardown (trace (snd run)) = 2%nat /\
  num_restarts (snd run) = 0%nat.
Proof. vm_compute. split_and!; reflexivity. Qed.

(** C7. Every run ends with exactly one teardown after its body, on
    every path, raising or not; the body tears down only in restarts.
    When [setup] returns [False], the body is that one [setup] call:
    nothing is loaded and no summary or result is recorded. *)
Theorem C7_teardown_once (be : backend) (cfg : config) (us : list string)
    (s s' : loader) (r : res unit) :
  load_pages be cfg us s = (r, s') ->
  exists d r2, trace s' = trace s ++ d ++ [ETeardown r2] /\
    count is_teardown d = (if restart_on_fail cfg then count is_unknown_load d else 0%nat) /\
    (setup_hook be (trace s) = Ok false ->
       d = [ESetup (Ok false)] /\ page_results s' = page_results s /\
       load_results s' = load_results s /\ urls s' = urls s).
Proof.
  intros H. pose proof H as H'.
  apply load_pages_teardowns in H' as (d & r2 & Ht & Hc).
  exists d, r2. split_and!; [done|done|]. intros Hs.
  rewrite load_pages_setup_false in H by done. injection H as _ <-.
  simpl in Ht |- *. split_and!; try done.
  rewrite <- app_assoc in Ht. apply app_inv_head in Ht.
  by apply app_inj_tail in Ht as [<- _].
Qed.

(** A ChromeLoader whose setup fails. *)
Lemma C7_witness :
  let be := chrome_backend false (fun _ => false) (fun _ => Ok tt) (fun _ => CapturerDone)
              (fun _ _ => true) in
  let cfg := ex_config 2 1 true false in
  let run := load_pages be cfg ["a.com"] fresh_loader in
  page_results (snd run) = ∅ /\
  exists d r2, trace (snd run) = trace fresh_loader ++ d ++ [ETeardown r2] /\
    count is_teardown d = (if restart_on_fail cfg then count is_unknown_load d else 0%nat) /\
    (setup_hook be (trace fresh_loader) = Ok false ->
       d = [ESetup (Ok false)] /\ page_results (snd run) = page_results fresh_loader /\
       load_results (snd run) = load_results fresh_loader /\ urls (snd run) = urls fresh_loader).
Proof.
  intros be cfg run. split; [vm_compute; reflexivity|].
  apply (C7_teardown_once be cfg ["a.com"] fresh_loader (snd run) (fst run)).
  vm_compute. reflexivity.
Defined.

(** C8. When the processing of a URL returns, its summary is
    [FAILURE_NOT_ACCESSIBLE] iff checking is on and
    [_check_protocol_available] returned [False] for it. Then the only
    call made for the URL is that check: no [_load_page] call, no results,
    and the restart counter is unchanged. *)
Theorem C8_not_accessible (be : backend) (cfg : config) (u0 : string) (s s' : loader) :
  process_url be cfg u0 s = (Ok tt, s') ->
  exists p, page_results s' !! check_url u0 = Some p /\
    (PageResult.status_ p = PageResult.FAILURE_NOT_ACCESSIBLE <->
     check_protocol_availability cfg = true /\
     fst (check_protocol_available be (check_url u0) s) = Ok false) /\
    (PageResult.status_ p = PageResult.FAILURE_NOT_ACCESSIBLE ->
     trace s' = trace s ++ [EProbe (check_url u0) (Ok false)] /\
     load_results s' = load_results s /\ num_restarts s' = num_restarts s).
Proof.
  intros H. destruct (goes_to_trials be cfg (check_url u0) s) eqn:Hg.
  - pose proof (process_url_trials be cfg u0 s s' _ Hg H) as (_ & d & l & _ & _ & _ & _ & Hp).
    eexists. rewrite Hp, lookup_insert_eq. split; [done|]. split.
    + split; [intros Hna; by apply PageResult_init_not_na in Hna|].
      intros [Hc Hf]. exfalso. unfold goes_to_trials in Hg. rewrite Hc in Hg. simpl in Hg.
      apply andb_true_iff in Hg as [Hu Hp']. apply negb_true_iff in Hu.
      unfold check_protocol_available in Hf. simpl in Hf. rewrite Hu, Hp' in Hf. discriminate.
    + intros Hna. by apply PageResult_init_not_na in Hna.
  - unfold goes_to_trials in Hg.
    destruct (check_protocol_availability cfg) eqn:Hc; [|discriminate].
    destruct (urlsplit_raises (check_url u0)) eqn:Hu.
    + rewrite process_url_probe_raises in H by done. discriminate.
    + simpl in Hg. rewrite process_url_not_accessible in H by done. injection H as <-.
      eexists. simpl. rewrite lookup_insert_eq. split; [done|]. split; [|done].
      split; [intros _|done]. split; [done|].
      unfold check_protocol_available. simpl. by rewrite Hu, Hg.
Qed.

(** A prober that says no: the URL is not accessible. *)
Lemma C8_witness :
  let be := ex_backend false in
  let cfg := ex_config 1 0 true true in
  let run := process_url be cfg "a.com" fresh_loader in
  exists p, page_results (snd run) !! check_url "a.com" = Some p /\
    (PageResult.status_ p = PageResult.FAILURE_NOT_ACCESSIBLE <->
     check_protocol_availability cfg = true /\
     fst (check_protocol_available be (check_url "a.com") fresh_loader) = Ok false) /\
    (PageResult.status_ p = PageResult.FAILURE_NOT_ACCESSIBLE ->
     trace (snd run) = trace fresh_loader ++ [EProbe (check_url "a.com") (Ok false)] /\
     load_results (snd run) = load_results fresh_loader /\
     num_restarts (snd run) = num_restarts fresh_loader).
Proof.
  intros be cfg run. apply (C8_not_accessible be cfg "a.com" fresh_loader (snd run)).
  vm_compute. reflexivity.
Defined.

(** C9 (code bug). The class of [_sanitize_url] shows a backslash after
    ['/'], but [\;] in the pattern is an escaped [';'], so a backslash is
    kept, while a ['/'] becomes ['-']. *)
Lemma C9_code_bug :
  sanitize_url "a\b" = "a\b" /\ sanitize_url "a/b" = "a-b".
Proof. split; vm_compute; reflexivity. Qed.

(** C10. The results of a URL pile up in the run-wide table under its
    [_check_url] form: a URL that is loaded appends at most [num_trials]
    results to those its key already has, from earlier occurrences, and
    its summary, built from all of them, replaces the key's summary. No
    other key's results change. *)
Theorem C10_results_accumulate (be : backend) (cfg : config) (u0 : string)
    (s s' : loader) (r : res unit) :
  goes_to_trials be cfg (check_url u0) s = true ->
  process_url be cfg u0 s = (r, s') ->
  exists l, (length l <= num_trials cfg)%nat /\
    default [] (load_results s' !! check_url u0)
      = default [] (load_results s !! check_url u0) ++ l /\
    (forall k, k <> check_url u0 -> load_results s' !! k = load_results s !! k) /\
    page_results s' = <[check_url u0 := PageResult_init (check_url u0) None
                          (default [] (load_results s !! check_url u0) ++ l)]> (page_results s).
Proof.
  intros Hg H. apply process_url_trials in H as (_ & d & l & _ & Hl & Hh & Ho & Hp); [|done].
  exists l. rewrite <- Hh. split_and!; done.
Qed.

(** The second occurrence of a URL, loaded once each time: its summary
    holds two times. *)
Lemma C10_witness :
  let be := ex_backend true in
  let cfg := ex_config 1 0 false false in
  let s1 := snd (process_url be cfg "a.com" fresh_loader) in
  let run := process_url be cfg "a.com" s1 in
  option_map PageResult.times (page_results (snd run) !! "http://a.com") = Some [5; 5] /\
  exists l, (length l <= num_trials cfg)%nat /\
    default [] (load_results (snd run) !! check_url "a.com")
      = default [] (load_results s1 !! check_url "a.com") ++ l /\
    (forall k, k <> check_url "a.com" -> load_results (snd run) !! k = load_results s1 !! k) /\
    page_results (snd run) = <[check_url "a.com" := PageResult_init (check_url "a.com") None
                          (default [] (load_results s1 !! check_url "a.com") ++ l)]> (page_results s1).
Proof.
  intros be cfg s1 run. split; [vm_compute; reflexivity|].
  apply (C10_results_accumulate be cfg "a.com" s1 (snd run) (fst run)).
  - vm_compute. reflexivity.
  - vm_compute. reflexivity.
Defined.

(** * Further properties of the code *)

(** ** Strings *)

Lemma str_mem_app (c : ascii) (a b : string) :
  str_mem c (a +:+ b) = str_mem c a || str_mem c b.
Proof. induction a as [|d a IH]; simpl; [done|]. by destruct (Ascii.eqb c d). Qed.

Lemma str_mem_rev (c : ascii) (s : string) : str_mem c (str_rev s) = str_mem c s.
Proof.
  induction s as [|d s IH]; simpl; [done|].
  rewrite str_mem_app, IH. simpl. destruct (Ascii.eqb c d), (str_mem c s); done.
Qed.

Lemma digit_not_slash (m : nat) : (m < 10)%nat ->
  Ascii.eqb "/"%char (ascii_of_nat (48 + m)) = false.
Proof. intros Hm. do 10 (destruct m as [|m]; [reflexivity|]). lia. Qed.

Lemma digits_rev_no_slash (f n : nat) : str_mem "/"%char (digits_rev f n) = false.
Proof.
  induction f as [|f IH] in n |- *; cbn [digits_rev str_mem]; [done|].
  rewrite digit_not_slash by (apply Nat.mod_upper_bound; lia).
  destruct (n <? 10)%nat; [done|apply IH].
Qed.

Lemma show_nat_no_slash (n : nat) : str_mem "/"%char (show_nat n) = false.
Proof. unfold show_nat. rewrite str_mem_rev. apply digits_rev_no_slash. Qed.

Lemma sanitize_url_no_slash (u : string) : str_mem "/"%char (sanitize_url u) = false.
Proof.
  unfold sanitize_url. induction u as [|c u IH]; cbn [str_map str_mem]; [done|].
  destruct (str_mem c sanitize_class) eqn:E; [exact IH|].
  destruct (Ascii.eqb "/" c) eqn:Ec; [|exact IH].
  apply Ascii.eqb_eq in Ec. subst c. discriminate.
Qed.

Lemma str_prefixb_slash (s : string) :
  str_mem "/"%char s = false -> str_prefixb "/" s = false.
Proof.
  destruct s as [|c s]; cbn [str_prefixb str_mem]; [done|].
  intros H. by destruct (Ascii.eqb "/" c).
Qed.

(** ** Page summaries *)

Lemma PageResult_init_lists (u : string) (st : option PageResult.status) (rs : list LoadResult.t) :
  PageResult.times (PageResult_init u st rs) = success_times rs /\
  PageResult.sizes (PageResult_init u st rs) = success_sizes rs /\
  PageResult.tcp_fast_open_support_statuses (PageResult_init u st rs) = success_tfo rs.
Proof.
  unfold PageResult_init. destruct rs as [|r rs]; [done|].
  rewrite pr_fold_spec. done.
Qed.

Lemma length_success_tfo (rs : list LoadResult.t) :
  length (success_tfo rs) = length (List.filter is_success rs).
Proof. induction rs as [|r rs IH]; simpl; [done|]. destruct (is_success r); simpl; lia. Qed.

Lemma length_success_sizes (rs : list LoadResult.t) :
  (length (success_sizes rs) <= length (List.filter is_success rs))%nat.
Proof.
  induction rs as [|r rs IH]; simpl; [done|].
  destruct (is_success r); simpl; [|done].
  destruct (LoadResult.size r) as [x|]; simpl; [destruct (x =? 0)|]; simpl; lia.
Qed.

Lemma length_success_times_le (rs : list LoadResult.t) :
  (length (success_times rs) <= length (List.filter is_success rs))%nat.
Proof.
  induction rs as [|r rs IH]; simpl; [done|].
  destruct (is_success r); simpl; [|done].
  destruct (LoadResult.time r) as [x|]; simpl; [destruct (x =? 0)|]; simpl; lia.
Qed.

Lemma append_if_truthy_nonzero (o : option Z) :
  Forall (fun z => z <> 0) (append_if_truthy o []).
Proof.
  destruct o as [x|]; simpl; [|done].
  destruct (x =? 0) eqn:E; simpl; [done|]. apply Z.eqb_neq in E. by repeat constructor.
Qed.

Lemma success_times_nonzero (rs : list LoadResult.t) :
  Forall (fun z => z <> 0) (success_times rs) /\ Forall (fun z => z <> 0) (success_sizes rs).
Proof.
  induction rs as [|r rs [IH1 IH2]]; simpl; [done|].
  destruct (is_success r); simpl; [|done].
  split; apply Forall_app; split; auto using append_if_truthy_nonzero.
Qed.

(** ** Invariants of a run

    A property of the loader state that every call, every [record], the
    restart counter, and the two ways [load_pages] writes a page summary
    keep, holds after a run. *)

Section Invariant.
Variable be : backend.
Variable cfg : config.
Variable I : loader -> Prop.
Hypothesis I_emit : forall s e, is_na_probe e = false -> I s -> I (emit e s).
Hypothesis I_incr : forall s, I s ->
  I (Build_loader (trace s) (urls s) (load_results s) (page_results s) (S (num_restarts s))).
Hypothesis I_record : forall s h u od i x,
  load_page_hook be h u od i = Ok x -> I s -> I (record u x s).2.
Hypothesis I_page : forall s u, I s ->
  I (Build_loader (trace s) (urls s) (load_results s)
       (<[u := PageResult_init u None (default [] (load_results s !! u))]> (page_results s))
       (num_restarts s)).
Hypothesis I_na : forall s u, check_protocol_availability cfg = true -> I s ->
  I (Build_loader (trace s ++ [EProbe u (Ok false)]) (urls s ++ [u]) (load_results s)
       (<[u := PageResult_init u (Some PageResult.FAILURE_NOT_ACCESSIBLE) []]> (page_results s))
       (num_restarts s)).

Lemma Inv_ret {A} (a : A) : Inv I (ret a).
Proof. intros s r s' Hs [= <- <-]. exact Hs. Qed.

Lemma Inv_bind {A B} (c : M A) (k : A -> M B) :
  Inv I c -> (forall a, Inv I (k a)) -> Inv I (bind c k).
Proof.
  intros Hc Hk s r s' Hs. unfold bind. destruct (c s) as [[a|] s1] eqn:E.
  - intros H. apply (Hk a s1 r s'); [exact (Hc s _ s1 Hs E)|exact H].
  - intros [= <- <-]. exact (Hc s _ s1 Hs E).
Qed.

Lemma Inv_try_except {A} (c h : M A) : Inv I c -> Inv I h -> Inv I (try_except c h).
Proof.
  intros Hc Hh s r s' Hs. unfold try_except. destruct (c s) as [[a|] s1] eqn:E.
  - intros [= <- <-]. exact (Hc s _ s1 Hs E).
  - intros H. apply (Hh s1 r s'); [exact (Hc s _ s1 Hs E)|exact H].
Qed.

Lemma Inv_try_finally {A} (c : M A) (f : M unit) : Inv I c -> Inv I f -> Inv I (try_finally c f).
Proof.
  intros Hc Hf s r s' Hs. unfold try_finally. destruct (c s) as [r1 s1] eqn:E.
  destruct (f s1) as [[[]|] s2] eqn:F; intros [= <- <-];
    exact (Hf s1 _ _ (Hc s _ s1 Hs E) F).
Qed.

Lemma Inv_emit_step {A} (c : M A) :
  (forall s, exists e, (c s).2 = emit e s /\ is_na_probe e = false) -> Inv I c.
Proof.
  intros Hc s r s' Hs H. destruct (Hc s) as (e & He & Hn).
  rewrite H in He. simpl in He. subst s'. by apply I_emit.
Qed.

Lemma Inv_log : Inv I log_exception.
Proof. apply Inv_emit_step. intros s. by exists ELogException. Qed.

Lemma Inv_call_setup : Inv I (call_setup be).
Proof. apply Inv_emit_step. intros s. by eexists. Qed.

Lemma Inv_call_teardown : Inv I (call_teardown be).
Proof. apply Inv_emit_step. intros s. by eexists. Qed.

Lemma Inv_when_restart (b : bool) : Inv I (when b (restart be)).
Proof.
  destruct b; [|apply Inv_ret]. unfold restart.
  apply Inv_bind; [apply Inv_call_teardown|intros _].
  apply Inv_bind; [apply Inv_call_setup|intros _].
  intros s r s' Hs [= <- <-]. by apply I_incr.
Qed.

Lemma Inv_when_record (b : bool) h u od i x :
  load_page_hook be h u od i = Ok x -> Inv I (when b (record u x)).
Proof.
  intros Hl. destruct b; [|apply Inv_ret]. intros s r s' Hs H. cbn [when] in H.
  pose proof (I_record s h u od i x Hl Hs) as Hr. rewrite H in Hr. exact Hr.
Qed.

Lemma Inv_attempt_loop (u : string) (i k t : nat) : Inv I (attempt_loop be cfg u i k t).
Proof.
  induction k as [|k IH] in t |- *; cbn [attempt_loop]; [apply Inv_ret|].
  destruct (t <=? retries_per_trial cfg)%nat; [|apply Inv_ret].
  intros s r s' Hs. unfold bind at 1, call_load_page.
  destruct (load_page_hook be (trace s) u (outdir cfg) i) as [x|] eqn:Hl.
  2:{ intros [= <- <-]. by apply I_emit. }
  assert (Hs1 : I (emit (ELoad u i (Ok x)) s)) by (by apply I_emit).
  destruct (is_success x); intros H; cbv beta iota in H.
  - exact (Inv_when_record true _ _ _ _ _ Hl _ _ _ Hs1 H).
  - exact (Inv_bind _ _ (Inv_when_record _ _ _ _ _ _ Hl)
             (fun _ => Inv_bind _ _ (Inv_when_restart _) (fun _ => IH _)) _ _ _ Hs1 H).
Qed.

Lemma Inv_trials (u : string) (is : list nat) : Inv I (trials be cfg u is).
Proof.
  induction is as [|i is IH]; simpl; [apply Inv_ret|].
  apply Inv_bind; [|intros; apply IH].
  apply Inv_try_except; [apply Inv_attempt_loop|apply Inv_log].
Qed.

Lemma Inv_trial_path (u : string) :
  Inv I (do trials be cfg u (seq 0 (num_trials cfg));
         do lr <- get_load_results u;
         set_page_result u (PageResult_init u None lr)).
Proof.
  apply Inv_bind; [apply Inv_trials|intros _].
  intros s r s' Hs [= <- <-]. by apply I_page.
Qed.

Lemma Inv_process_url (u0 : string) : Inv I (process_url be cfg u0).
Proof.
  intros s r s' Hs H.
  destruct (check_protocol_availability cfg) eqn:Hc.
  - destruct (urlsplit_raises (check_url u0)) eqn:Hu.
    + rewrite process_url_probe_raises in H by done. injection H as _ <-. by apply I_emit.
    + destruct (probe_net be (trace s) (check_url u0)) eqn:Hp.
      * assert (Hpb : (do ok <- check_protocol_available be (check_url u0); ret (negb ok)) s
                      = (Ok false, emit (EProbe (check_url u0) (Ok true)) s))
          by (unfold bind, check_protocol_available; rewrite Hu, Hp; reflexivity).
        revert H. unfold process_url. rewrite Hc. unfold bind at 1. rewrite Hpb. intros H.
        apply (Inv_trial_path (check_url u0) (emit (EProbe (check_url u0) (Ok true)) s) r s');
          [by apply I_emit|exact H].
      * rewrite process_url_not_accessible in H by done. injection H as _ <-. by apply I_na.
  - revert H. unfold process_url. rewrite Hc. unfold bind at 1. cbn [ret negb]. intros H.
    exact (Inv_trial_path (check_url u0) s r s' Hs H).
Qed.

Lemma Inv_process_urls (us : list string) : Inv I (process_urls be cfg us).
Proof.
  induction us as [|u us IH]; simpl; [apply Inv_ret|].
  apply Inv_bind; [apply Inv_process_url|intros; apply IH].
Qed.

Lemma Inv_load_pages_body (us : list string) :
  Inv I (try_except (do ok <- call_setup be; if ok then process_urls be cfg us else ret tt)
           log_exception).
Proof.
  apply Inv_try_except; [|apply Inv_log].
  apply Inv_bind; [apply Inv_call_setup|intros b; destruct b; [apply Inv_process_urls|apply Inv_ret]].
Qed.

Lemma Inv_load_pages (us : list string) : Inv I (load_pages be cfg us).
Proof. apply Inv_try_finally; [apply Inv_load_pages_body|apply Inv_call_teardown]. Qed.

End Invariant.

(** ** Instances *)

Lemma count_single (f : event -> bool) (e : event) :
  count f [e] = (if f e then 1 else 0)%nat.
Proof. unfold count. simpl. by destruct (f e). Qed.

Lemma url_count_snoc (k u : string) (us : list string) :
  url_count k (us ++ [u]) = (url_count k us + if String.eqb k u then 1 else 0)%nat.
Proof. unfold url_count. rewrite List.filter_app, length_app. simpl. by destruct (String.eqb k u). Qed.

Lemma is_na_probe_of_false (k : string) (e : event) :
  is_na_probe e = false -> is_na_probe_of k e = false.
Proof. destruct e as [r|r|u [[]|]|u i r|]; simpl; congruence. Qed.

(** Results the backend returns are the only ones recorded. *)
Lemma load_pages_results_sat (be : backend) (cfg : config) (Pres : LoadResult.t -> Prop)
    (us : list string) (s s' : loader) r :
  (forall h u od i x, load_page_hook be h u od i = Ok x -> Pres x) ->
  results_sat Pres s -> load_pages be cfg us s = (r, s') -> results_sat Pres s'.
Proof.
  intros Hp Hs H. refine (Inv_load_pages be cfg (results_sat Pres) _ _ _ _ _ us s r s' Hs H).
  - intros s1 e _ H1. exact H1.
  - intros s1 H1. exact H1.
  - intros s1 h u od i x Hl H1 k rs. rewrite record_spec. cbn [snd load_results].
    destruct (decide (k = u)) as [->|Hne].
    + rewrite lookup_insert_eq. intros [= <-]. apply Forall_app. split.
      * destruct (load_results s1 !! u) eqn:E; [by apply (H1 u)|done].
      * constructor; [by eapply Hp|done].
    + rewrite lookup_insert_ne by congruence. apply H1.
  - intros s1 u H1. exact H1.
  - intros s1 u _ H1. exact H1.
Qed.

Lemma load_pages_urls_accounted (be : backend) (cfg : config) (us : list string) (s s' : loader) r :
  urls_accounted s -> load_pages be cfg us s = (r, s') -> urls_accounted s'.
Proof.
  intros Hs H. refine (Inv_load_pages be cfg urls_accounted _ _ _ _ _ us s r s' Hs H).
  - intros s1 e He H1 k. cbn [emit urls trace load_results].
    rewrite count_app, count_single, is_na_probe_of_false by done. rewrite H1. lia.
  - intros s1 H1. exact H1.
  - intros s1 h u od i x _ H1 k. rewrite record_spec. cbn [snd urls load_results trace].
    rewrite url_count_snoc, H1. destruct (decide (k = u)) as [->|Hne].
    + rewrite lookup_insert_eq, String.eqb_refl. simpl. rewrite length_app. simpl. lia.
    + rewrite lookup_insert_ne by congruence.
      assert (Hk : String.eqb k u = false) by (by apply String.eqb_neq). rewrite Hk. lia.
  - intros s1 u H1. exact H1.
  - intros s1 u _ H1 k. cbn [urls trace load_results].
    rewrite url_count_snoc, count_app, count_single, H1. simpl.
    destruct (String.eqb u k) eqn:E1; destruct (String.eqb k u) eqn:E2; try lia.
    + apply String.eqb_eq in E1. subst. by rewrite String.eqb_refl in E2.
    + apply String.eqb_eq in E2. subst. by rewrite String.eqb_refl in E1.
Qed.

Lemma load_pages_no_na (be : backend) (cfg : config) (us : list string) (s s' : loader) r :
  check_protocol_availability cfg = false ->
  no_na s -> load_pages be cfg us s = (r, s') -> no_na s'.
Proof.
  intros Hc Hs H. refine (Inv_load_pages be cfg no_na _ _ _ _ _ us s r s' Hs H).
  - intros s1 e _ H1. exact H1.
  - intros s1 H1. exact H1.
  - intros s1 h u od i x _ H1. exact H1.
  - intros s1 u H1 k p. cbn [page_results]. destruct (decide (k = u)) as [->|Hne].
    + rewrite lookup_insert_eq. intros [= <-]. apply PageResult_init_not_na.
    + rewrite lookup_insert_ne by congruence. apply H1.
  - intros s1 u Hc'. congruence.
Qed.

(** The trace only grows. *)
Lemma load_pages_body_trace (be : backend) (cfg : config) (us : list string) (s s2 : loader) rb :
  try_except (do ok <- call_setup be; if ok then process_urls be cfg us else ret tt)
    log_exception s = (rb, s2) ->
  exists d, trace s2 = trace s ++ d.
Proof.
  intros H.
  refine (Inv_load_pages_body be cfg (fun s1 => exists d, trace s1 = trace s ++ d)
            _ _ _ _ _ us s rb s2 _ H).
  - intros s1 e _ [d Hd]. exists (d ++ [e]). simpl. by rewrite Hd, app_assoc.
  - intros s1 H1. exact H1.
  - intros s1 h u od i x _ H1. exact H1.
  - intros s1 u H1. exact H1.
  - intros s1 u _ [d Hd]. exists (d ++ [EProbe u (Ok false)]). simpl. by rewrite Hd, app_assoc.
  - exists []. by rewrite app_nil_r.
Qed.

Lemma process_url_from (be : backend) (cfg : config) (u0 : string) (s s' : loader) r :
  process_url be cfg u0 s = (r, s') -> summaries_from s -> summaries_from s'.
Proof.
  intros H Hok.
  destruct (goes_to_trials be cfg (check_url u0) s) eqn:Hg.
  - apply process_url_trials in H as (_ & d & l & _ & Hl & Hh & Ho & Hp); [|done].
    intros k p. rewrite Hp. destruct (decide (k = check_url u0)) as [->|Hne].
    + rewrite lookup_insert_eq. intros [= <-]. by right.
    + rewrite lookup_insert_ne by congruence. rewrite (Ho k Hne). apply Hok.
  - unfold goes_to_trials in Hg.
    destruct (check_protocol_availability cfg) eqn:Hc; [|discriminate].
    destruct (urlsplit_raises (check_url u0)) eqn:Hu.
    + rewrite process_url_probe_raises in H by done. injection H as _ <-. exact Hok.
    + simpl in Hg. rewrite process_url_not_accessible in H by done.
      injection H as _ <-. intros k p. cbn [page_results load_results].
      destruct (decide (k = check_url u0)) as [->|Hne].
      * rewrite lookup_insert_eq. intros [= <-]. by left.
      * rewrite lookup_insert_ne by congruence. apply Hok.
Qed.

Lemma process_urls_from (be : backend) (cfg : config) (us : list string) (s s' : loader) r :
  process_urls be cfg us s = (r, s') -> summaries_from s -> summaries_from s'.
Proof.
  induction us as [|u us IH] in s, s', r |- *; simpl.
  - intros [= <- <-]. done.
  - unfold bind at 1. destruct (process_url be cfg u s) as [[[]|] s1] eqn:H1.
    + intros H Hs. apply (IH s1 s' r H). exact (process_url_from be cfg u s s1 _ H1 Hs).
    + intros [= <- <-] Hs. exact (process_url_from be cfg u s s1 _ H1 Hs).
Qed.

Lemma load_pages_from (be : backend) (cfg : config) (us : list string) (s s' : loader) r :
  summaries_from s -> load_pages be cfg us s = (r, s') -> summaries_from s'.
Proof.
  intros Hs H. apply load_pages_final in H as (rb & s2 & Hb & -> & _).
  apply load_pages_body_cases in Hb as [[Hl Hp]|(r1 & s1 & Hp & Hl & Hpp)];
    unfold summaries_from; simpl.
  - rewrite Hl, Hp. exact Hs.
  - rewrite Hl, Hpp. exact (process_urls_from be cfg us _ s1 r1 Hp Hs).
Qed.

Lemma summaries_from_fresh : summaries_from fresh_loader.
Proof. intros k p. simpl. by rewrite lookup_empty. Qed.

Lemma results_sat_fresh (Pres : LoadResult.t -> Prop) : results_sat Pres fresh_loader.
Proof. intros k rs. simpl. by rewrite lookup_empty. Qed.

(** ** Counting loads *)

Lemma trials_loads (be : backend) (cfg : config) (u : string) (is : list nat) (s s' : loader) r :
  trials be cfg u is s = (r, s') ->
  exists d, trace s' = trace s ++ d /\
    (length (loads_of d) <= length is * S (retries_per_trial cfg))%nat.
Proof.
  induction is as [|i is IH] in s, s', r |- *; simpl.
  - intros [= <- <-]. exists []. rewrite app_nil_r. simpl. split; [done|lia].
  - unfold bind at 1. destruct (trial be cfg u i s) as [r1 s1] eqn:H1.
    apply trial_spec in H1 as (-> & d1 & l1 & Ht1 & _ & _ & Hn1 & _).
    intros H. apply IH in H as (d2 & Ht2 & Hn2).
    exists (d1 ++ d2). rewrite Ht2, Ht1, app_assoc, loads_of_app, length_app.
    split; [done|lia].
Qed.

Lemma trial_path_loads (be : backend) (cfg : config) (u : string) (s s' : loader) r :
  (do trials be cfg u (seq 0 (num_trials cfg));
   do lr <- get_load_results u;
   set_page_result u (PageResult_init u None lr)) s = (r, s') ->
  exists d, trace s' = trace s ++ d /\
    (length (loads_of d) <= num_trials cfg * S (retries_per_trial cfg))%nat.
Proof.
  unfold bind at 1. destruct (trials be cfg u _ s) as [r1 s1] eqn:H1.
  pose proof H1 as H2. apply trials_spec in H2 as (-> & _).
  apply trials_loads in H1 as (d & Ht & Hn). rewrite length_seq in Hn.
  intros [= <- <-]. exists d. done.
Qed.

Lemma process_url_loads (be : backend) (cfg : config) (u0 : string) (s s' : loader) r :
  process_url be cfg u0 s = (r, s') ->
  exists d, trace s' = trace s ++ d /\
    (length (loads_of d) <= num_trials cfg * S (retries_per_trial cfg))%nat.
Proof.
  intros H.
  destruct (check_protocol_availability cfg) eqn:Hc.
  - destruct (urlsplit_raises (check_url u0)) eqn:Hu.
    + rewrite process_url_probe_raises in H by done. injection H as _ <-.
      exists [EProbe (check_url u0) Raise]. simpl. split; [done|lia].
    + destruct (probe_net be (trace s) (check_url u0)) eqn:Hp.
      * assert (Hpb : (do ok <- check_protocol_available be (check_url u0); ret (negb ok)) s
                      = (Ok false, emit (EProbe (check_url u0) (Ok true)) s))
          by (unfold bind, check_protocol_available; rewrite Hu, Hp; reflexivity).
        revert H. unfold process_url. rewrite Hc. unfold bind at 1. rewrite Hpb. intros H.
        apply trial_path_loads in H as (d & Ht & Hn).
        exists (EProbe (check_url u0) (Ok true) :: d). rewrite Ht. simpl.
        split; [by rewrite <- app_assoc|done].
      * rewrite process_url_not_accessible in H by done. injection H as _ <-.
        exists [EProbe (check_url u0) (Ok false)]. simpl. split; [done|lia].
  - revert H. unfold process_url. rewrite Hc. unfold bind at 1. cbn [ret negb]. intros H.
    exact (trial_path_loads be cfg (check_url u0) s s' r H).
Qed.

Lemma process_urls_loads (be : backend) (cfg : config) (us : list string) (s s' : loader) r :
  process_urls be cfg us s = (r, s') ->
  exists d, trace s' = trace s ++ d /\
    (length (loads_of d) <= length us * (num_trials cfg * S (retries_per_trial cfg)))%nat.
Proof.
  induction us as [|u us IH] in s, s', r |- *; simpl.
  - intros [= <- <-]. exists []. rewrite app_nil_r. simpl. split; [done|lia].
  - unfold bind at 1. destruct (process_url be cfg u s) as [r1 s1] eqn:H1.
    apply process_url_loads in H1 as (d1 & Ht1 & Hn1). destruct r1 as [[]|].
    + intros H. apply IH in H as (d2 & Ht2 & Hn2).
      exists (d1 ++ d2). rewrite Ht2, Ht1, app_assoc, loads_of_app, length_app.
      split; [done|lia].
    + intros [= <- <-]. exists d1. split; [done|lia].
Qed.

(** ** Keys a run does not touch *)

Lemma process_urls_untouched (be : backend) (cfg : config) (us : list string) (k : string)
    (s s' : loader) r :
  (forall u0, u0 ∈ us -> check_url u0 <> k) ->
  process_urls be cfg us s = (r, s') ->
  load_results s' !! k = load_results s !! k /\ page_results s' !! k = page_results s !! k.
Proof.
  induction us as [|u us IH] in s, s', r |- *; simpl; intros Hk.
  - intros [= <- <-]. done.
  - assert (Hu : check_url u <> k) by (apply Hk; constructor).
    unfold bind at 1. destruct (process_url be cfg u s) as [r1 s1] eqn:H1.
    pose proof H1 as H2. apply process_url_results in H2 as (Ho & _ & _).
    assert (Hstep : load_results s1 !! k = load_results s !! k /\
                    page_results s1 !! k = page_results s !! k).
    { split; [apply Ho; congruence|].
      apply process_url_pages in H1 as [[_ [p Hp]]|(_ & _ & _ & ->)]; [|done].
      rewrite Hp. by rewrite lookup_insert_ne. }
    destruct r1 as [[]|].
    + intros H. apply IH in H as [H3 H4]; [|intros v Hv; apply Hk; by constructor].
      rewrite H3, H4. exact Hstep.
    + intros [= <- <-]. exact Hstep.
Qed.

(** ** The restart counter *)

Lemma sumZ_zero (d : list event) : sumZ (fun _ => 0) d = 0.
Proof. induction d as [|e d IH]; simpl; [done|lia]. Qed.

Lemma load_pages_no_restart (be : backend) (cfg : config) (us : list string) (s s' : loader) r :
  restart_on_fail cfg = false -> load_pages be cfg us s = (r, s') ->
  num_restarts s' = num_restarts s.
Proof.
  intros Hr H. apply load_pages_final in H as (rb & s2 & Hb & -> & _).
  apply (Bal_load_pages_body be cfg Z.of_nat (fun _ => 0) (fun _ => True)) in Hb
    as (d & _ & Hn & _); try done.
  - simpl. rewrite sumZ_zero in Hn. lia.
  - intros u i x s1 r1 s1' _ H. rewrite Hr, andb_false_r in H. cbn [when ret] in H.
    injection H as <- <-. exists []. rewrite app_nil_r. simpl. split_and!; [done|lia|done].
Qed.

(** ** Paths and summaries of ChromeLoader *)

Lemma path_join_shape (a b : string) :
  str_prefixb "/" b = false ->
  exists sep, (sep = EmptyString \/ sep = "/") /\ path_join a b = a +:+ sep +:+ b.
Proof.
  intros Hb. unfold path_join. rewrite Hb.
  destruct (String.eqb a EmptyString) eqn:E.
  - apply String.eqb_eq in E. subst a. exists EmptyString. split; [by left|reflexivity].
  - destruct (String.get (String.length a - 1) a) as [c|];
      [|exists "/"; split; [by right|reflexivity]].
    destruct c as [[] [] [] [] [] [] [] []];
      first [exists EmptyString; split; [by left|reflexivity]
            |exists "/"; split; [by right|reflexivity]].
Qed.

Lemma success_lists_none (rs : list LoadResult.t) :
  Forall (fun x => LoadResult.time x = None /\ LoadResult.size x = None) rs ->
  success_times rs = [] /\ success_sizes rs = [].
Proof.
  induction 1 as [|x rs [Ht Hs] _ [IH1 IH2]]; [done|]. simpl.
  rewrite Ht, Hs, IH1, IH2. by destruct (is_success x).
Qed.

Lemma str_app_cons (c : ascii) (a b : string) : String c a +:+ b = String c (a +:+ b).
Proof. reflexivity. Qed.

Lemma str_app_nil_r (a : string) : a +:+ EmptyString = a.
Proof. induction a as [|c a IH]; [reflexivity|]. by rewrite str_app_cons, IH. Qed.

Lemma str_app_assoc (a b c : string) : a +:+ (b +:+ c) = (a +:+ b) +:+ c.
Proof. induction a as [|d a IH]; [reflexivity|]. by rewrite !str_app_cons, IH. Qed.

Lemma str_length_app (a b : string) :
  String.length (a +:+ b) = (String.length a + String.length b)%nat.
Proof.
  induction a as [|c a IH]; [reflexivity|].
  rewrite str_app_cons. cbn [String.length]. by rewrite IH.
Qed.

Lemma str_app_inv_l (a b1 b2 : string) : a +:+ b1 = a +:+ b2 -> b1 = b2.
Proof.
  induction a as [|c a IH]; [done|].
  rewrite !str_app_cons. intros H. injection H. exact IH.
Qed.

Lemma str_app_inv_r (x y t : string) : x +:+ t = y +:+ t -> x = y.
Proof.
  induction x as [|c x IH] in y |- *; destruct y as [|d y]; intros H.
  - done.
  - apply (f_equal String.length) in H. rewrite !str_length_app in H.
    cbn [String.length] in H. lia.
  - apply (f_equal String.length) in H. rewrite !str_length_app in H.
    cbn [String.length] in H. lia.
  - rewrite !str_app_cons in H. injection H as -> H. f_equal. by apply IH.
Qed.

Lemma str_rev_app (a b : string) : str_rev (a +:+ b) = str_rev b +:+ str_rev a.
Proof.
  induction a as [|c a IH].
  - cbn [str_rev]. by rewrite str_app_nil_r.
  - rewrite str_app_cons. cbn [str_rev]. by rewrite IH, str_app_assoc.
Qed.

Lemma str_rev_involutive (s : string) : str_rev (str_rev s) = s.
Proof.
  induction s as [|c s IH]; [reflexivity|].
  cbn [str_rev]. rewrite str_rev_app, IH. reflexivity.
Qed.

Lemma digits_rev_value (f n : nat) : (n < f)%nat -> digits_value (digits_rev f n) = n.
Proof.
  induction f as [|f IH] in n |- *; intros Hn; [lia|].
  cbn [digits_rev digits_value].
  rewrite nat_ascii_embedding by (pose proof (Nat.mod_upper_bound n 10); lia).
  pose proof (Nat.div_mod n 10 ltac:(lia)) as Hd.
  destruct (Nat.ltb_spec n 10) as [Hlt|Hge].
  - cbn [digits_value]. rewrite Nat.mod_small in * by lia. lia.
  - rewrite IH; [lia|]. pose proof (Nat.div_lt n 10 ltac:(lia) ltac:(lia)). lia.
Qed.

Lemma show_nat_inj (i j : nat) : show_nat i = show_nat j -> i = j.
Proof.
  unfold show_nat. intros H. apply (f_equal str_rev) in H.
  rewrite !str_rev_involutive in H. apply (f_equal digits_value) in H.
  rewrite !digits_rev_value in H by lia. exact H.
Qed.

(** A name that does not start with ['/'] is joined after the same
    prefix, whatever the name. *)
Lemma path_join_prefix (a b : string) :
  str_prefixb "/" b = false -> path_join a b = path_join a EmptyString +:+ b.
Proof.
  intros Hb. unfold path_join. rewrite Hb. cbn [str_prefixb].
  destruct (String.eqb a EmptyString); [reflexivity|].
  destruct (String.get (String.length a - 1) a) as [c|];
    [|by rewrite <- str_app_assoc].
  destruct c as [[] [] [] [] [] [] [] []];
    first [rewrite str_app_nil_r; reflexivity | rewrite <- str_app_assoc; reflexivity].
Qed.

(** * Properties of the code beyond the claims *)

(** X1. [_check_url] always returns a URL with a scheme separator
    ["://"], and applying it twice changes nothing. *)
Theorem X1_check_url_idempotent (u : string) :
  str_contains "://" (check_url u) = true /\ check_url (check_url u) = check_url u.
Proof.
  assert (H : str_contains "://" (check_url u) = true).
  { unfold check_url. destruct (str_contains "://" u) eqn:E; [exact E|reflexivity]. }
  split; [exact H|]. set (v := check_url u) in *. unfold check_url. by rewrite H.
Qed.

(** X2. No character of the class of [_sanitize_url] is left in its
    result. *)
Theorem X2_sanitize_url_clean (u : string) :
  str_forallb (fun c => negb (str_mem c sanitize_class)) (sanitize_url u) = true.
Proof.
  unfold sanitize_url. induction u as [|c u IH]; cbn [str_map str_forallb]; [done|].
  rewrite IH, andb_true_r.
  destruct (str_mem c sanitize_class) eqn:E; cbv beta iota; [reflexivity|by rewrite E].
Qed.

(** X3. [_sanitize_url] is idempotent. *)
Theorem X3_sanitize_url_idempotent (u : string) :
  sanitize_url (sanitize_url u) = sanitize_url u.
Proof.
  unfold sanitize_url. induction u as [|c u IH]; cbn [str_map]; [done|].
  rewrite IH. f_equal.
  destruct (str_mem c sanitize_class) eqn:E; cbv beta iota; [reflexivity|by rewrite E].
Qed.

(** X4. A [PageResult] holds one fast-open flag per successful result,
    and at most that many times and sizes, whatever status is passed. *)
Theorem X4_PageResult_lengths (u : string) (st : option PageResult.status)
    (rs : list LoadResult.t) :
  length (PageResult.tcp_fast_open_support_statuses (PageResult_init u st rs))
    = length (List.filter is_success rs) /\
  (length (PageResult.times (PageResult_init u st rs)) <= length (List.filter is_success rs))%nat /\
  (length (PageResult.sizes (PageResult_init u st rs)) <= length (List.filter is_success rs))%nat.
Proof.
  destruct (PageResult_init_lists u st rs) as (-> & -> & ->).
  split_and!; auto using length_success_tfo, length_success_sizes, length_success_times_le.
Qed.

(** X5. Every time and every size a [PageResult] keeps is non-zero: zero
    values are dropped by the truthiness tests. *)
Theorem X5_PageResult_nonzero (u : string) (st : option PageResult.status)
    (rs : list LoadResult.t) :
  Forall (fun z => z <> 0) (PageResult.times (PageResult_init u st rs)) /\
  Forall (fun z => z <> 0) (PageResult.sizes (PageResult_init u st rs)).
Proof.
  destruct (PageResult_init_lists u st rs) as (-> & -> & _). apply success_times_nonzero.
Qed.

(** X6. With [save_har], ChromeLoader writes the HARs of two different
    trials of a URL to two different paths, so no trial overwrites the
    HAR of another. *)
Theorem X6_chrome_har_paths_distinct (u od : string) (i j : nat) :
  i <> j ->
  LoadResult.har_path (chrome_load_page true u od i CapturerDone) <>
  LoadResult.har_path (chrome_load_page true u od j CapturerDone).
Proof.
  intros Hij H. apply Hij. cbn [chrome_load_page LoadResult.har_path] in H.
  injection H as H.
  assert (Hs : forall n, str_prefixb "/" (sanitize_url u +:+ "_trial" +:+ show_nat n +:+ ".har")
                        = false).
  { intros n. apply str_prefixb_slash.
    rewrite !str_mem_app, sanitize_url_no_slash, show_nat_no_slash. reflexivity. }
  rewrite (path_join_prefix od _ (Hs i)), (path_join_prefix od _ (Hs j)) in H.
  apply str_app_inv_l, str_app_inv_l, str_app_inv_l, str_app_inv_r in H.
  by apply show_nat_inj.
Qed.

(** Trials 0 and 1 of [a.com] under [out]. *)
Lemma X6_witness :
  LoadResult.har_path (chrome_load_page true "a.com" "out" 0 CapturerDone)
    = Some "out/a.com_trial0.har" /\
  LoadResult.har_path (chrome_load_page true "a.com" "out" 0 CapturerDone) <>
  LoadResult.har_path (chrome_load_page true "a.com" "out" 1 CapturerDone).
Proof.
  split; [vm_compute; reflexivity|].
  apply (X6_chrome_har_paths_distinct "a.com" "out" 0 1). lia.
Defined.

(** X7. With [save_har], the HAR of a completed load is written under the
    output directory: its path is the directory, a separator (none when
    the directory is empty or ends with ['/']) and a file name
    [<sanitized url>_trial<n>.har] that holds no ['/']. Without
    [save_har] the path is ['/dev/null']. *)
Theorem X7_chrome_har_path (u od : string) (i : nat) :
  str_mem "/"%char (sanitize_url u +:+ "_trial" +:+ show_nat i +:+ ".har") = false /\
  (exists sep, (sep = EmptyString \/ sep = "/") /\
     LoadResult.har_path (chrome_load_page true u od i CapturerDone)
     = Some (od +:+ sep +:+ (sanitize_url u +:+ "_trial" +:+ show_nat i +:+ ".har"))) /\
  LoadResult.har_path (chrome_load_page false u od i CapturerDone) = Some "/dev/null".
Proof.
  assert (Hf : str_mem "/"%char (sanitize_url u +:+ "_trial" +:+ show_nat i +:+ ".har") = false)
    by (rewrite !str_mem_app, sanitize_url_no_slash, show_nat_no_slash; reflexivity).
  split; [exact Hf|]. split; [|reflexivity].
  destruct (path_join_shape od _ (str_prefixb_slash _ Hf)) as (sep & Hsep & Hj).
  exists sep. split; [exact Hsep|]. rewrite <- Hj. reflexivity.
Qed.

(** X8. ChromeLoader records no load time or size, so after a run on a
    fresh loader every result has neither and every page summary has
    empty [times] and [sizes]. *)
Theorem X8_chrome_no_times (save_har : bool) (setup_ok : list event -> bool)
    (teardown : list event -> res unit) (capturer : list event -> capturer_outcome)
    (net : list event -> string -> bool) (cfg : config) (us : list string)
    (s' : loader) (r : res unit) :
  load_pages (chrome_backend save_har setup_ok teardown capturer net) cfg us fresh_loader = (r, s') ->
  (forall k rs, load_results s' !! k = Some rs ->
     Forall (fun x => LoadResult.time x = None /\ LoadResult.size x = None) rs) /\
  (forall k p, page_results s' !! k = Some p ->
     PageResult.times p = [] /\ PageResult.sizes p = []).
Proof.
  intros H.
  assert (Hr : results_sat (fun x => LoadResult.time x = None /\ LoadResult.size x = None) s').
  { refine (load_pages_results_sat _ cfg _ us fresh_loader s' r _ (results_sat_fresh _) H).
    intros h u od i x Hl. cbn [load_page_hook chrome_backend] in Hl. injection Hl as <-.
    destruct (capturer h); split; reflexivity. }
  split; [exact Hr|].
  intros k p Hp.
  apply (load_pages_from _ cfg us fresh_loader s' r summaries_from_fresh H) in Hp as [->| ->].
  - split; reflexivity.
  - destruct (PageResult_init_lists k None (default [] (load_results s' !! k))) as (-> & -> & _).
    apply success_lists_none.
    destruct (load_results s' !! k) eqn:E; [by apply (Hr k)|done].
Qed.

(** A ChromeLoader that saves HARs: the summary is a success without
    times. *)
Lemma X8_witness :
  let cap := chrome_backend true (fun _ => true) (fun _ => Ok tt) (fun _ => CapturerDone)
               (fun _ _ => true) in
  let run := load_pages cap (ex_config 2 0 false false) ["a.com"] fresh_loader in
  option_map PageResult.status_ (page_results (snd run) !! "http://a.com")
    = Some PageResult.SUCCESS /\
  (forall k rs, load_results (snd run) !! k = Some rs ->
     Forall (fun x => LoadResult.time x = None /\ LoadResult.size x = None) rs) /\
  (forall k p, page_results (snd run) !! k = Some p ->
     PageResult.times p = [] /\ PageResult.sizes p = []).
Proof.
  intros cap run. split; [vm_compute; reflexivity|].
  apply (X8_chrome_no_times true (fun _ => true) (fun _ => Ok tt) (fun _ => CapturerDone)
           (fun _ _ => true) (ex_config 2 0 false false) ["a.com"] (snd run) (fst run)).
  vm_compute. reflexivity.
Defined.

(** X9. As wired, every [_load_page] call of PhantomJSLoader raises, so a
    run on a fresh loader records no result, and every page summary is a
    [FAILURE_UNSET] or [FAILURE_NOT_ACCESSIBLE] one with empty lists. *)
Theorem X9_phantomjs_no_results (net : list event -> string -> bool) (cfg : config)
    (us : list string) (s' : loader) (r : res unit) :
  load_pages (phantomjs_backend net) cfg us fresh_loader = (r, s') ->
  (forall k rs, load_results s' !! k = Some rs -> rs = []) /\
  (forall k p, page_results s' !! k = Some p ->
     (PageResult.status_ p = PageResult.FAILURE_UNSET \/
      PageResult.status_ p = PageResult.FAILURE_NOT_ACCESSIBLE) /\
     PageResult.times p = [] /\ PageResult.sizes p = [] /\
     PageResult.tcp_fast_open_support_statuses p = []).
Proof.
  intros H.
  assert (Hr : results_sat (fun _ => False) s').
  { refine (load_pages_results_sat _ cfg _ us fresh_loader s' r _ (results_sat_fresh _) H).
    intros h u od i x Hl. discriminate Hl. }
  assert (Hnil : forall k rs, load_results s' !! k = Some rs -> rs = []).
  { intros k rs Hk. apply Hr in Hk. destruct rs as [|x rs]; [done|].
    apply Forall_cons in Hk as [[] _]. }
  split; [exact Hnil|].
  intros k p Hp.
  apply (load_pages_from _ cfg us fresh_loader s' r summaries_from_fresh H) in Hp as [->| ->].
  - split_and!; [by right|done..].
  - destruct (load_results s' !! k) as [rs|] eqn:E; [rewrite (Hnil k rs E)|];
      split_and!; (by left) || done.
Qed.

(** PhantomJSLoader on one URL: a [FAILURE_UNSET] summary. *)
Lemma X9_witness :
  let run := load_pages (phantomjs_backend (fun _ _ => true)) (ex_config 1 0 false false)
               ["a.com"] fresh_loader in
  option_map PageResult.status_ (page_results (snd run) !! "http://a.com")
    = Some PageResult.FAILURE_UNSET /\
  (forall k rs, load_results (snd run) !! k = Some rs -> rs = []) /\
  (forall k p, page_results (snd run) !! k = Some p ->
     (PageResult.status_ p = PageResult.FAILURE_UNSET \/
      PageResult.status_ p = PageResult.FAILURE_NOT_ACCESSIBLE) /\
     PageResult.times p = [] /\ PageResult.sizes p = [] /\
     PageResult.tcp_fast_open_support_statuses p = []).
Proof.
  intros run. split; [vm_compute; reflexivity|].
  apply (X9_phantomjs_no_results (fun _ _ => true) (ex_config 1 0 false false) ["a.com"]
           (snd run) (fst run)).
  vm_compute. reflexivity.
Defined.

(** X10. With protocol checking off and a setup that returns [True], a
    run on a fresh loader gives every submitted URL the summary of its own
    results; none is [FAILURE_NOT_ACCESSIBLE]. *)
Theorem X10_no_check_all_loaded (be : backend) (cfg : config) (us : list string)
    (s' : loader) (r : res unit) :
  check_protocol_availability cfg = false -> setup_hook be [] = Ok true ->
  load_pages be cfg us fresh_loader = (r, s') ->
  forall u0, u0 ∈ us ->
  page_results s' !! check_url u0 =
    Some (PageResult_init (check_url u0) None (default [] (load_results s' !! check_url u0))).
Proof.
  intros Hc Hs H u0 Hu0.
  destruct (load_pages_outcome be cfg us fresh_loader s' r Hs H)
    as [Hall|(pre & v & post & t & r2 & _ & Hc' & _)]; [|congruence].
  destruct (Hall u0 Hu0) as [p Hp]. rewrite Hp.
  assert (Hn : no_na s').
  { refine (load_pages_no_na be cfg us fresh_loader s' r Hc _ H).
    intros k q. simpl. by rewrite lookup_empty. }
  pose proof (load_pages_from be cfg us fresh_loader s' r summaries_from_fresh H _ _ Hp)
    as [->| ->]; [|done].
  exfalso. exact (Hn _ _ Hp eq_refl).
Qed.

(** Two URLs loaded twice each, without protocol checks. *)
Lemma X10_witness :
  let be := ex_backend true in
  let cfg := ex_config 2 0 false false in
  let run := load_pages be cfg ["a.com"; "b.org"] fresh_loader in
  option_map PageResult.times (page_results (snd run) !! "http://b.org") = Some [5; 5] /\
  forall u0, u0 ∈ ["a.com"; "b.org"] ->
  page_results (snd run) !! check_url u0 =
    Some (PageResult_init (check_url u0) None (default [] (load_results (snd run) !! check_url u0))).
Proof.
  intros be cfg run. split; [vm_compute; reflexivity|].
  apply (X10_no_check_all_loaded be cfg ["a.com"; "b.org"] (snd run) (fst run)).
  - reflexivity.
  - reflexivity.
  - vm_compute. reflexivity.
Defined.

(** X11. With [restart_on_fail] off, a run leaves [num_restarts] as it
    was, whatever the loads return. *)
Theorem X11_no_restart_counter (be : backend) (cfg : config) (us : list string)
    (s s' : loader) (r : res unit) :
  restart_on_fail cfg = false -> load_pages be cfg us s = (r, s') ->
  num_restarts s' = num_restarts s.
Proof. apply load_pages_no_restart. Qed.

(** A [FAILURE_UNKNOWN] result without [restart_on_fail]: no restart. *)
Lemma X11_witness :
  let be := flaky_backend LoadResult.FAILURE_UNKNOWN 1 in
  let cfg := ex_config 1 1 false false in
  let run := load_pages be cfg ["a.com"] fresh_loader in
  count is_unknown_load (trace (snd run)) = 1%nat /\
  num_restarts (snd run) = num_restarts fresh_loader.
Proof.
  intros be cfg run. split; [vm_compute; reflexivity|].
  apply (X11_no_restart_counter be cfg ["a.com"] fresh_loader (snd run) (fst run)).
  - reflexivity.
  - vm_compute. reflexivity.
Defined.

(** X12. A run calls [_load_page] at most [len(urls) * num_trials *
    (1 + retries_per_trial)] times. *)
Theorem X12_load_calls_bound (be : backend) (cfg : config) (us : list string)
    (s s' : loader) (r : res unit) :
  load_pages be cfg us s = (r, s') ->
  exists d, trace s' = trace s ++ d /\
    (length (loads_of d) <= length us * (num_trials cfg * S (retries_per_trial cfg)))%nat.
Proof.
  intros H. apply load_pages_final in H as (rb & s2 & Hb & -> & _).
  assert (Hd : exists d, trace s2 = trace s ++ d /\
            (length (loads_of d) <= length us * (num_trials cfg * S (retries_per_trial cfg)))%nat).
  { unfold try_except, bind at 1, call_setup in Hb.
    destruct (setup_hook be (trace s)) as [[]|] eqn:Hs.
    - destruct (process_urls be cfg us (emit (ESetup (Ok true)) s)) as [[[]|] s1] eqn:Hp;
        apply process_urls_loads in Hp as (d & Ht & Hn); simpl in Ht.
      + injection Hb as <- <-. exists (ESetup (Ok true) :: d).
        rewrite Ht, <- app_assoc. split; [done|exact Hn].
      + unfold log_exception in Hb. injection Hb as <- <-.
        exists (ESetup (Ok true) :: d ++ [ELogException]). simpl.
        rewrite Ht, <- !app_assoc. split; [done|].
        rewrite loads_of_app. simpl. rewrite app_nil_r. exact Hn.
    - injection Hb as <- <-. exists [ESetup (Ok false)]. simpl. split; [done|lia].
    - unfold log_exception in Hb. injection Hb as <- <-.
      exists [ESetup Raise; ELogException]. simpl. rewrite <- app_assoc. split; [done|lia]. }
  destruct Hd as (d & Ht & Hn).
  exists (d ++ [ETeardown (teardown_hook be (trace s2))]). simpl.
  rewrite Ht, <- app_assoc. split; [done|].
  rewrite loads_of_app. simpl. rewrite app_nil_r. exact Hn.
Qed.

(** Loads that always time out: two trials of two tries reach the
    bound of four calls. *)
Lemma X12_witness :
  let be := flaky_backend LoadResult.FAILURE_TIMEOUT 10 in
  let cfg := ex_config 2 1 false false in
  let run := load_pages be cfg ["a.com"] fresh_loader in
  length (loads_of (trace (snd run))) = 4%nat /\
  exists d, trace (snd run) = trace fresh_loader ++ d /\
    (length (loads_of d) <= length ["a.com"] * (num_trials cfg * S (retries_per_trial cfg)))%nat.
Proof.
  intros be cfg run. split; [vm_compute; reflexivity|].
  apply (X12_load_calls_bound be cfg ["a.com"] fresh_loader (snd run) (fst run)).
  vm_compute. reflexivity.
Defined.

(** X13. Across runs, [_urls] lists each URL key once per result
    recorded for it and once per protocol check that found it not
    accessible. *)
Theorem X13_urls_accounting (be : backend) (cfg : config) (us : list string)
    (s s' : loader) (r : res unit) :
  urls_accounted s -> load_pages be cfg us s = (r, s') -> urls_accounted s'.
Proof. apply load_pages_urls_accounted. Qed.

(** A URL submitted twice and found not accessible twice: listed twice
    in [_urls], with no result. *)
Lemma X13_witness :
  let be := ex_backend false in
  let cfg := ex_config 1 0 false true in
  let run := load_pages be cfg ["a.com"; "a.com"] fresh_loader in
  urls (snd run) = ["http://a.com"; "http://a.com"] /\ urls_accounted (snd run).
Proof.
  intros be cfg run. split; [vm_compute; reflexivity|].
  apply (X13_urls_accounting be cfg ["a.com"; "a.com"] fresh_loader (snd run) (fst run)).
  - intros k. cbn [urls load_results trace fresh_loader]. by rewrite lookup_empty.
  - vm_compute. reflexivity.
Defined.

(** X14. When [_setup] does not return [True], [load_pages] processes no
    URL: it calls [_setup], logs an exception if that raised, calls
    [_teardown] and returns its outcome; the URLs, results, summaries and
    the restart counter are unchanged. *)
Theorem X14_setup_not_true (be : backend) (cfg : config) (us : list string)
    (s s' : loader) (r : res unit) :
  setup_hook be (trace s) <> Ok true -> load_pages be cfg us s = (r, s') ->
  urls s' = urls s /\ load_results s' = load_results s /\
  page_results s' = page_results s /\ num_restarts s' = num_restarts s /\
  trace s' = trace s ++ [ESetup (setup_hook be (trace s))] ++
    (match setup_hook be (trace s) with Raise => [ELogException] | Ok _ => [] end) ++
    [ETeardown r].
Proof.
  intros Hs H. apply load_pages_final in H as (rb & s2 & Hb & -> & Hr).
  unfold try_except, bind at 1, call_setup in Hb.
  destruct (setup_hook be (trace s)) as [[]|] eqn:E; [congruence| |].
  - injection Hb as <- <-. subst r. simpl. split_and!; try done.
    rewrite <- ?app_assoc. simpl. by destruct (teardown_hook be _) as [[]|].
  - unfold log_exception in Hb. injection Hb as <- <-. subst r. simpl. split_and!; try done.
    rewrite <- ?app_assoc. simpl. by destruct (teardown_hook be _) as [[]|].
Qed.

(** A ChromeLoader whose setup fails. *)
Lemma X14_witness :
  let be := chrome_backend false (fun _ => false) (fun _ => Ok tt) (fun _ => CapturerDone)
              (fun _ _ => true) in
  let cfg := ex_config 1 0 false false in
  let run := load_pages be cfg ["a.com"] fresh_loader in
  trace (snd run) = [ESetup (Ok false); ETeardown (Ok tt)] /\
  urls (snd run) = urls fresh_loader /\ load_results (snd run) = load_results fresh_loader /\
  page_results (snd run) = page_results fresh_loader /\
  num_restarts (snd run) = num_restarts fresh_loader /\
  trace (snd run) = trace fresh_loader ++ [ESetup (setup_hook be (trace fresh_loader))] ++
    (match setup_hook be (trace fresh_loader) with Raise => [ELogException] | Ok _ => [] end) ++
    [ETeardown (fst run)].
Proof.
  intros be cfg run. split; [vm_compute; reflexivity|].
  apply (X14_setup_not_true be cfg ["a.com"] fresh_loader (snd run) (fst run)).
  - intros Hc. vm_compute in Hc. discriminate Hc.
  - vm_compute. reflexivity.
Defined.

(** X15. Every run ends with the final [_teardown] call, and
    [load_pages] returns exactly that call's outcome: it raises if and
    only if that teardown raises, since every other exception is caught. *)
Theorem X15_outcome_is_teardown (be : backend) (cfg : config) (us : list string)
    (s s' : loader) (r : res unit) :
  load_pages be cfg us s = (r, s') ->
  exists d, trace s' = trace s ++ d ++ [ETeardown r].
Proof.
  intros H. apply load_pages_final in H as (rb & s2 & Hb & -> & Hr).
  assert (Hrb : rb = Ok tt).
  { revert Hb. unfold try_except.
    destruct (bind (call_setup be) _ s) as [[[]|] s1]; [intros [= <- _]; done|].
    unfold log_exception. intros [= <- _]. done. }
  destruct (load_pages_body_trace be cfg us s s2 rb Hb) as [d Hd].
  exists d. simpl. rewrite Hd, <- app_assoc. do 3 f_equal.
  subst r rb. rewrite <- Hd. by destruct (teardown_hook be (trace s2)) as [[]|].
Qed.

(** A teardown that raises: the run raises. *)
Lemma X15_witness :
  let be := chrome_backend false (fun _ => true) (fun _ => Raise) (fun _ => CapturerDone)
              (fun _ _ => true) in
  let cfg := ex_config 1 0 false false in
  let run := load_pages be cfg ["a.com"] fresh_loader in
  fst run = Raise /\
  exists d, trace (snd run) = trace fresh_loader ++ d ++ [ETeardown (fst run)].
Proof.
  intros be cfg run. split; [vm_compute; reflexivity|].
  apply (X15_outcome_is_teardown be cfg ["a.com"] fresh_loader (snd run) (fst run)).
  vm_compute. reflexivity.
Defined.

(** X16. A run leaves the results and the summary of every key that no
    submitted URL maps to under [_check_url] as they were. *)
Theorem X16_other_keys_untouched (be : backend) (cfg : config) (us : list string)
    (k : string) (s s' : loader) (r : res unit) :
  (forall u0, u0 ∈ us -> check_url u0 <> k) ->
  load_pages be cfg us s = (r, s') ->
  load_results s' !! k = load_results s !! k /\ page_results s' !! k = page_results s !! k.
Proof.
  intros Hk H. apply load_pages_final in H as (rb & s2 & Hb & -> & _).
  apply load_pages_body_cases in Hb as [[Hl Hp]|(r1 & s1 & Hp & Hl & Hpp)]; simpl.
  - by rewrite Hl, Hp.
  - rewrite Hl, Hpp. exact (process_urls_untouched be cfg us k _ s1 r1 Hk Hp).
Qed.

(** A second run on another URL keeps the first URL's summary. *)
Lemma X16_witness :
  let be := ex_backend true in
  let cfg := ex_config 1 0 false false in
  let s1 := snd (load_pages be cfg ["b.org"] fresh_loader) in
  let run := load_pages be cfg ["a.com"] s1 in
  option_map PageResult.status_ (page_results (snd run) !! "http://b.org")
    = Some PageResult.SUCCESS /\
  load_results (snd run) !! "http://b.org" = load_results s1 !! "http://b.org" /\
  page_results (snd run) !! "http://b.org" = page_results s1 !! "http://b.org".
Proof.
  intros be cfg s1 run. split; [vm_compute; reflexivity|].
  apply (X16_other_keys_untouched be cfg ["a.com"] "http://b.org" s1 (snd run) (fst run)).
  - intros u0 Hu0. apply list_elem_of_singleton in Hu0 as ->.
    intros Heq. vm_compute in Heq. discriminate Heq.
  - vm_compute. reflexivity.
Defined.
